(** * notes-api: a shallow embedding of [server.js]

    The service keeps three pieces of process-wide state ([notes],
    [noteIdCounter], [rateLimitMap]) and exposes four handlers
    (POST /notes, GET /notes, PUT /notes/:id, GET /notes/search).
    Every handler is modelled as a function from the state before the
    request to the response and the state after it.

    Modelling conventions.
    - A JavaScript string is a [string]; characters are restricted to the
      ASCII range, where [trim] strips TAB, LF, VT, FF, CR and SPACE and
      [toLowerCase] maps the letters A-Z.  What is proved about the matching
      of a search does not rest on that: it is proved for the handler with
      the lower-casing function as a parameter ([get_search_with]).
    - JavaScript numbers holding note ids and millisecond clock readings are
      integers far below 2^53, where double arithmetic is exact; they are
      modelled as [Z].
    - An ISO-8601 timestamp produced by [toISOString] is modelled by the
      millisecond reading it prints; [new Date(iso)] reads it back.
    - Each evaluation of [Date.now()] or [new Date()] is one clock reading,
      supplied to the handler in evaluation order. *)

From Stdlib Require Import ZArith Ascii Sorted Permutation.
From stdpp Require Import gmap strings list fin_maps.

Local Open Scope Z_scope.

(** ** JavaScript values as they reach the handlers *)

(** A field of a parsed JSON body, or a parsed query parameter.
    [JUndefined] stands for an absent field. *)
Inductive JsValue : Type :=
  | JUndefined
  | JNull
  | JBool (b : bool)
  | JNumber (z : Z)
  | JString (s : string)
  | JArray
  | JObject.

(** [!v] is true exactly on the falsy values. *)
Definition truthy (v : JsValue) : bool :=
  match v with
  | JUndefined | JNull => false
  | JBool b => b
  | JNumber z => negb (z =? 0)
  | JString s => negb (String.eqb s "")
  | JArray | JObject => true
  end.

(** The result of [parseInt]: an integer, NaN, or an infinity. *)
Inductive JsNumber : Type :=
  | NaN
  | Infinity (negative : bool)
  | Num (z : Z).

(** [id === noteId] for an integer [id]. *)
Definition strict_eq (i : Z) (n : JsNumber) : bool :=
  match n with
  | Num z => i =? z
  | _ => false
  end.

(** ** String primitives *)

Module Js.

(** WhiteSpace and LineTerminator code points of the ASCII range. *)
Definition isWhiteSpace (c : ascii) : bool :=
  let n := nat_of_ascii c in
  ((9 <=? n)%nat && (n <=? 13)%nat) || (n =? 32)%nat.

Fixpoint trimStart (s : string) : string :=
  match s with
  | EmptyString => EmptyString
  | String c s' => if isWhiteSpace c then trimStart s' else s
  end.

Fixpoint trimEnd (s : string) : string :=
  match s with
  | EmptyString => EmptyString
  | String c s' =>
      match trimEnd s' with
      | EmptyString => if isWhiteSpace c then EmptyString else String c EmptyString
      | r => String c r
      end
  end.

(** [String.prototype.trim] *)
Definition trim (s : string) : string := trimEnd (trimStart s).

Definition lowerChar (c : ascii) : ascii :=
  let n := nat_of_ascii c in
  if ((65 <=? n)%nat && (n <=? 90)%nat) then ascii_of_nat (n + 32) else c.

(** [String.prototype.toLowerCase] on ASCII texts *)
Fixpoint toLowerCase (s : string) : string :=
  match s with
  | EmptyString => EmptyString
  | String c s' => String (lowerChar c) (toLowerCase s')
  end.

Fixpoint startsWith (s p : string) {struct p} : bool :=
  match p, s with
  | EmptyString, _ => true
  | String _ _, EmptyString => false
  | String c p', String d s' => Ascii.eqb c d && startsWith s' p'
  end.

(** [String.prototype.includes] *)
Fixpoint includes (s q : string) : bool :=
  startsWith s q ||
  match s with
  | EmptyString => false
  | String _ s' => includes s' q
  end.

End Js.

(** ** server.js *)

(** [cleanString]: non-strings become the empty string, strings are trimmed. *)
Definition cleanString (str : JsValue) : string :=
  match str with
  | JString s => Js.trim s
  | _ => ""
  end.

(** [!s] for a string [s]. *)
Definition is_empty (s : string) : bool := String.eqb s "".

Record Note : Type := mkNote {
  id : Z;
  title : string;
  content : string;
  created_at : Z;
  updated_at : Z
}.

Record State : Type := mkState {
  notes : list Note;
  noteIdCounter : Z;
  rateLimitMap : gmap string (list Z)
}.

(** The state at process start. *)
Definition initial : State :=
  {| notes := []; noteIdCounter := 1; rateLimitMap := ∅ |}.

Definition RATE_LIMIT_WINDOW : Z := 60000.
Definition MAX_NOTES_PER_MINUTE : nat := 5.

(** [req.ip || 'default'] *)
Definition clientId (ip : option string) : string :=
  match ip with
  | Some s => if is_empty s then "default" else s
  | None => "default"
  end.

(** The rate-limiting middleware.  The boolean is [true] when [next()] is
    called and [false] when the 429 response is sent. *)
Definition rateLimiter (now : Z) (ip : option string)
    (m : gmap string (list Z)) : bool * gmap string (list Z) :=
  let c := clientId ip in
  let m1 := match m !! c with Some _ => m | None => <[c := []]> m end in
  let timestamps := default [] (m1 !! c) in
  let validTimestamps :=
    filter (λ timestamp, now - timestamp < RATE_LIMIT_WINDOW) timestamps in
  if decide (MAX_NOTES_PER_MINUTE ≤ length validTimestamps)%nat
  then (false, m1)
  else (true, <[c := validTimestamps ++ [now]]> m1).

Record Validation : Type := mkValidation {
  isValid : bool;
  errors : list string;
  cleanTitle : string;
  cleanContent : string
}.

Definition validateNoteInput (title content : JsValue) : Validation :=
  let cleanTitle := cleanString title in
  let cleanContent := cleanString content in
  let errors :=
    (if is_empty cleanTitle
     then ["Title is required and cannot be empty or just spaces"] else [])
    ++
    (if is_empty cleanContent
     then ["Content is required and cannot be empty or just spaces"] else []) in
  {| isValid := (length errors =? 0)%nat;
     errors := errors;
     cleanTitle := cleanTitle;
     cleanContent := cleanContent |}.

Inductive Response : Type :=
  | Created (note : Note)                                   (* 201 *)
  | ValidationFailed (details : list string)                (* 400 *)
  | RateLimited                                             (* 429 *)
  | NoteList (count : nat) (ns : list Note)                 (* 200 *)
  | NotFound (noteId : JsNumber)                            (* 404 *)
  | NoChanges (note : Note)                                 (* 200 *)
  | Updated (note : Note) (updated_fields : list string)    (* 200 *)
  | MissingQuery                                            (* 400 *)
  | InvalidQuery                                            (* 400 *)
  | SearchResult (query : string) (count : nat) (ns : list Note) (* 200 *)
  | InternalError.                                          (* 500 *)

(** [Array.prototype.findIndex]; [None] stands for -1. *)
Fixpoint findIndex {A : Type} (p : A → bool) (l : list A) : option nat :=
  match l with
  | [] => None
  | x :: l' => if p x then Some 0%nat else S <$> findIndex p l'
  end.

(** [Array.prototype.sort] with a comparator.  The sort is stable, so its
    result is the one insertion produces: [x] goes in front of the first
    element it does not compare greater than. *)
Fixpoint sort_insert {A : Type} (cmp : A → A → Z) (x : A) (l : list A) : list A :=
  match l with
  | [] => [x]
  | y :: l' => if cmp x y <=? 0 then x :: l else y :: sort_insert cmp x l'
  end.

Definition sort {A : Type} (cmp : A → A → Z) (l : list A) : list A :=
  foldr (sort_insert cmp) [] l.

(** [(a, b) => new Date(b.updated_at) - new Date(a.updated_at)] *)
Definition byUpdatedDesc (a b : Note) : Z := updated_at b - updated_at a.

(** *** POST /notes
    [now] is read by the middleware; [t_created] and [t_updated] are the
    readings of the two [new Date()] of the note literal, in that order. *)
Definition post_notes (now t_created t_updated : Z) (ip : option string)
    (title content : JsValue) (s : State) : Response * State :=
  let '(next, m) := rateLimiter now ip (rateLimitMap s) in
  let s1 := {| notes := notes s; noteIdCounter := noteIdCounter s;
               rateLimitMap := m |} in
  if negb next then (RateLimited, s1)
  else
    let validation := validateNoteInput title content in
    if negb (isValid validation)
    then (ValidationFailed (errors validation), s1)
    else
      let newNote := {| id := noteIdCounter s;
                        title := cleanTitle validation;
                        content := cleanContent validation;
                        created_at := t_created;
                        updated_at := t_updated |} in
      (Created newNote,
       {| notes := notes s ++ [newNote];
          noteIdCounter := noteIdCounter s + 1;
          rateLimitMap := m |}).

(** *** GET /notes *)
Definition get_notes (s : State) : Response * State :=
  let sortedNotes := sort byUpdatedDesc (notes s) in
  (NoteList (length sortedNotes) sortedNotes, s).

(** *** PUT /notes/:id *)

(** The object [updatedFields]; [Object.keys] lists its keys in insertion
    order, and [title] is always assigned before [content]. *)
Record UpdatedFields : Type := mkUpdatedFields {
  new_title : option string;
  new_content : option string
}.

Definition keys (u : UpdatedFields) : list string :=
  match new_title u with Some _ => ["title"] | None => [] end ++
  match new_content u with Some _ => ["content"] | None => [] end.

Definition is_undefined (v : JsValue) : bool :=
  match v with JUndefined => true | _ => false end.

(** [{ ...existingNote, ...updatedFields, updated_at: now }] *)
Definition spread (existingNote : Note) (u : UpdatedFields) (now : Z) : Note :=
  {| id := id existingNote;
     title := default (title existingNote) (new_title u);
     content := default (content existingNote) (new_content u);
     created_at := created_at existingNote;
     updated_at := now |}.

Definition put_note (now : Z) (noteId : JsNumber) (title' content' : JsValue)
    (s : State) : Response * State :=
  match findIndex (λ note, strict_eq (id note) noteId) (notes s) with
  | None => (NotFound noteId, s)
  | Some noteIndex =>
    match notes s !! noteIndex with
    | None => (InternalError, s)
    | Some existingNote =>
      let cleanTitle := cleanString title' in
      if negb (is_undefined title') && is_empty cleanTitle
      then (ValidationFailed ["Title cannot be empty or just spaces"], s)
      else
        let titleChanged :=
          negb (is_undefined title') &&
          negb (String.eqb cleanTitle (title existingNote)) in
        let cleanContent := cleanString content' in
        if negb (is_undefined content') && is_empty cleanContent
        then (ValidationFailed ["Content cannot be empty or just spaces"], s)
        else
          let contentChanged :=
            negb (is_undefined content') &&
            negb (String.eqb cleanContent (content existingNote)) in
          let updatedFields :=
            {| new_title := if titleChanged then Some cleanTitle else None;
               new_content := if contentChanged then Some cleanContent else None |} in
          let hasChanges := titleChanged || contentChanged in
          if negb hasChanges then (NoChanges existingNote, s)
          else
            let updatedNote := spread existingNote updatedFields now in
            (Updated updatedNote (keys updatedFields),
             {| notes := <[noteIndex := updatedNote]> (notes s);
                noteIdCounter := noteIdCounter s;
                rateLimitMap := rateLimitMap s |})
    end
  end.

(** *** GET /notes/search *)
Definition get_search (query : JsValue) (s : State) : Response * State :=
  if negb (truthy query) then (MissingQuery, s)
  else
    let cleanQuery := Js.toLowerCase (cleanString query) in
    if is_empty cleanQuery then (InvalidQuery, s)
    else
      let results :=
        List.filter
          (λ note,
             let titleMatch := Js.includes (Js.toLowerCase (title note)) cleanQuery in
             let contentMatch := Js.includes (Js.toLowerCase (content note)) cleanQuery in
             titleMatch || contentMatch)
          (notes s) in
      let sortedResults := sort byUpdatedDesc results in
      (SearchResult cleanQuery (length sortedResults) sortedResults, s).

(** *** GET /notes/search for any lower-casing function
    [String.prototype.toLowerCase] is code of the runtime, not of the
    repository, and is not a per-character map (it follows the Unicode
    special casing).  [get_search_with] is the handler of lines 185-222 with
    that function as the parameter [toLowerCase]; [get_search] above is its
    instance at the ASCII [Js.toLowerCase], which requests are run with. *)
Definition get_search_with (toLowerCase : string → string) (query : JsValue)
    (s : State) : Response * State :=
  if negb (truthy query) then (MissingQuery, s)
  else
    let cleanQuery := toLowerCase (cleanString query) in
    if is_empty cleanQuery then (InvalidQuery, s)
    else
      let results :=
        List.filter
          (λ note,
             let titleMatch := Js.includes (toLowerCase (title note)) cleanQuery in
             let contentMatch := Js.includes (toLowerCase (content note)) cleanQuery in
             titleMatch || contentMatch)
          (notes s) in
      let sortedResults := sort byUpdatedDesc results in
      (SearchResult cleanQuery (length sortedResults) sortedResults, s).

(** ** Requests and reachable states *)

(** A request together with the clock readings taken while it is served. *)
Inductive Event : Type :=
  | PostNotes (now t_created t_updated : Z) (ip : option string)
              (title content : JsValue)
  | GetNotes
  | PutNote (now : Z) (noteId : JsNumber) (title content : JsValue)
  | GetSearch (query : JsValue).

Definition handle (e : Event) (s : State) : Response * State :=
  match e with
  | PostNotes now tc tu ip t c => post_notes now tc tu ip t c s
  | GetNotes => get_notes s
  | PutNote now i t c => put_note now i t c s
  | GetSearch q => get_search q s
  end.

(** Requests are served one at a time, each on the state the previous left. *)
Fixpoint run (es : list Event) (s : State) : list Response * State :=
  match es with
  | [] => ([], s)
  | e :: es' =>
      let '(r, s') := handle e s in
      let '(rs, s'') := run es' s' in
      (r :: rs, s'')
  end.

Inductive reachable : State → Prop :=
  | reachable_initial : reachable initial
  | reachable_step e s : reachable s → reachable (handle e s).2.

(** ** Vocabulary of the properties *)

Module Text.

Fixpoint all_whitespace (s : string) : bool :=
  match s with
  | EmptyString => true
  | String c s' => Js.isWhiteSpace c && all_whitespace s'
  end.

Definition first_char (s : string) : option ascii :=
  match s with
  | EmptyString => None
  | String c _ => Some c
  end.

Fixpoint last_char (s : string) : option ascii :=
  match s with
  | EmptyString => None
  | String c EmptyString => Some c
  | String _ s' => last_char s'
  end.

Definition starts_with_whitespace (s : string) : bool :=
  match first_char s with Some c => Js.isWhiteSpace c | None => false end.

Definition ends_with_whitespace (s : string) : bool :=
  match last_char s with Some c => Js.isWhiteSpace c | None => false end.

(** Non-empty, not whitespace-only, no leading or trailing whitespace. *)
Definition well_formed (s : string) : bool :=
  negb (is_empty s) && negb (all_whitespace s) &&
  negb (starts_with_whitespace s) && negb (ends_with_whitespace s).

End Text.

Definition note_well_formed (n : Note) : Prop :=
  Text.well_formed (title n) = true ∧ Text.well_formed (content n) = true.

(** The search criterion: the lower-cased title or the lower-cased content
    of [n] has the cleaned query as a substring. *)
Definition lowered_match (toLowerCase : string → string) (cleanQuery : string)
    (n : Note) : Prop :=
  (∃ pre post, toLowerCase (title n) = pre +:+ cleanQuery +:+ post) ∨
  (∃ pre post, toLowerCase (content n) = pre +:+ cleanQuery +:+ post).

(** Ordered by [updated_at], most recent first. *)
Definition newest_first (l : list Note) : Prop :=
  StronglySorted (λ a b, updated_at b ≤ updated_at a) l.

(** The responses that reject a request because of the client's input. *)
Definition is_rejection (r : Response) : bool :=
  match r with
  | ValidationFailed _ | RateLimited | NotFound _ | MissingQuery | InvalidQuery => true
  | _ => false
  end.

(** A field that is present in the body and is not a string. *)
Definition provided_non_string (v : JsValue) : bool :=
  match v with
  | JUndefined | JString _ => false
  | _ => true
  end.

(** A provided field whose cleaned value differs from the stored one. *)
Definition changes (v : JsValue) (stored : string) : bool :=
  negb (is_undefined v) && negb (String.eqb (cleanString v) stored).

(** The record the middleware stores for a client whose request it lets
    through at [now]. *)
Definition recorded (now : Z) (ip : option string)
    (m : gmap string (list Z)) : gmap string (list Z) :=
  <[clientId ip :=
      filter (λ t, now - t < RATE_LIMIT_WINDOW) (default [] (m !! clientId ip))
      ++ [now]]> m.

(** The rate-limiter state a rejected request leaves behind. *)
Definition limiter_after_rejection (e : Event) (r : Response)
    (m : gmap string (list Z)) : gmap string (list Z) :=
  match e, r with
  | PostNotes now _ _ ip _ _, ValidationFailed _ => recorded now ip m
  | _, _ => m
  end.

(** Successive rate-limit checks of one client at the given clock readings. *)
Fixpoint checks (ip : option string) (times : list Z)
    (m : gmap string (list Z)) : list bool :=
  match times with
  | [] => []
  | now :: rest =>
      let '(next, m') := rateLimiter now ip m in next :: checks ip rest m'
  end.

(** The pruning step read literally from the specification: a timestamp is
    discarded when it is older than [now - window]; the request is rejected
    when at least [MAX_NOTES_PER_MINUTE] timestamps remain. *)
Definition specified_remaining (now : Z) (record : list Z) : list Z :=
  filter (λ t, ¬ t < now - RATE_LIMIT_WINDOW) record.

Definition specified_accepts (now : Z) (record : list Z) : bool :=
  bool_decide (length (specified_remaining now record) < MAX_NOTES_PER_MINUTE)%nat.

(** The first lookup by id, as [findIndex] followed by indexing does it. *)
Definition find_by_id (i : Z) (s : State) : option Note :=
  match findIndex (λ note, strict_eq (id note) (Num i)) (notes s) with
  | Some k => notes s !! k
  | None => None
  end.

(** Ids are 1, 2, ... in creation order and the counter holds the next one. *)
Definition ids_sequential (s : State) : Prop :=
  id <$> notes s = seqZ 1 (Z.of_nat (length (notes s))) ∧
  noteIdCounter s = 1 + Z.of_nat (length (notes s)).

Definition texts_well_formed (s : State) : Prop :=
  Forall note_well_formed (notes s).

(** [selection P l sub]: [sub] keeps, in order and with their multiplicity,
    exactly the elements of [l] that satisfy [P]. *)
Inductive selection (P : Note → Prop) : list Note → list Note → Prop :=
  | selection_nil : selection P [] []
  | selection_keep x l sub :
      P x → selection P l sub → selection P (x :: l) (x :: sub)
  | selection_drop x l sub :
      ¬ P x → selection P l sub → selection P (x :: l) sub.

(** The same field with a non-string value replaced by the empty string. *)
Definition as_blank (v : JsValue) : JsValue :=
  if provided_non_string v then JString "" else v.

(** ** Sample requests and states *)

Module Example.

Definition client : option string := Some "203.0.113.7".
Definition t0 : Z := 1700000000000.

(** A create whose three clock readings coincide at [t0 + k]. *)
Definition create (k : Z) (title content : string) : Event :=
  PostNotes (t0 + k) (t0 + k) (t0 + k) client (JString title) (JString content).

Definition two_notes : State :=
  (run [create 0 "  Meeting Notes  " " Discussed hiring plan and deadlines ";
        create 100 "Project Ideas" "Build a task manager app"] initial).2.

(** Five creates of one client within five milliseconds. *)
Definition busy : State :=
  (run [create 0 "n1" "a"; create 1 "n2" "b"; create 2 "n3" "c";
        create 3 "n4" "d"; create 4 "n5" "e"] initial).2.

(** A create with a blank title, from a client the limiter has not seen. *)
Definition blank_title : Event :=
  PostNotes t0 t0 t0 client
    (JString "   ") (JString "Some content").

(** The record of [client] in [busy]. *)
Definition busy_record : list Z :=
  [t0; t0 + 1; t0 + 2; t0 + 3; t0 + 4].

(** An update of note 1 that retitles it and repeats its content. *)
Definition retitle : Event :=
  PutNote (t0 + 500) (Num 1)
    (JString " Updated Meeting Notes ")
    (JString "Discussed hiring plan and deadlines").

Definition note1 : Note :=
  {| id := 1; title := "Meeting Notes";
     content := "Discussed hiring plan and deadlines";
     created_at := t0; updated_at := t0 |}.

Definition note2 : Note :=
  {| id := 2; title := "Project Ideas";
     content := "Build a task manager app";
     created_at := t0 + 100; updated_at := t0 + 100 |}.

End Example.


(** ** Further vocabulary *)

(** A field that [cleanString] empties: absent, not a string, or made of
    whitespace only. *)
Definition blank (v : JsValue) : bool :=
  match v with
  | JString s => Text.all_whitespace s
  | _ => true
  end.

(** The 429 response. *)
Definition rate_limited (r : Response) : bool :=
  match r with
  | RateLimited => true
  | _ => false
  end.

(** The client whose rate-limit record a request touches, if any. *)
Definition event_client (e : Event) : option string :=
  match e with
  | PostNotes _ _ _ ip _ _ => Some (clientId ip)
  | _ => None
  end.

(** A create request: its three clock readings and the two body fields. *)
Record CreateRequest : Type := mkCreateRequest {
  at_now : Z;
  at_created : Z;
  at_updated : Z;
  with_title : JsValue;
  with_content : JsValue
}.

(** The creates of one client, in the order they are served. *)
Definition creates (ip : option string) (reqs : list CreateRequest) : list Event :=
  (λ r, PostNotes (at_now r) (at_created r) (at_updated r) ip
          (with_title r) (with_content r)) <$> reqs.

(** Every reading is less than one window after each earlier one. *)
Fixpoint within_one_window (times : list Z) : Prop :=
  match times with
  | [] => True
  | t :: rest =>
      Forall (λ t', t' - t < RATE_LIMIT_WINDOW) rest ∧ within_one_window rest
  end.

(** The filter of the search handler for a cleaned query. *)
Definition search_filter (cleanQuery : string) (note : Note) : bool :=
  Js.includes (Js.toLowerCase (title note)) cleanQuery
  || Js.includes (Js.toLowerCase (content note)) cleanQuery.

(** The same filter for any lower-casing function. *)
Definition search_filter_with (toLowerCase : string → string)
    (cleanQuery : string) (note : Note) : bool :=
  Js.includes (toLowerCase (title note)) cleanQuery
  || Js.includes (toLowerCase (content note)) cleanQuery.

(** The state without the note at position [i]. *)
Definition without (i : nat) (s : State) : State :=
  {| notes := delete i (notes s);
     noteIdCounter := noteIdCounter s;
     rateLimitMap := rateLimitMap s |}.

(** The 201 response. *)
Definition is_created (r : Response) : bool :=
  match r with
  | Created _ => true
  | _ => false
  end.

Module Example2.

(** Six creates of one client within six milliseconds; the second and the
    third have a blank field. *)
Definition burst : list CreateRequest :=
  [ {| at_now := Example.t0; at_created := Example.t0;
       at_updated := Example.t0;
       with_title := JString "Meeting Notes"; with_content := JString "x" |};
    {| at_now := Example.t0 + 1; at_created := Example.t0 + 1;
       at_updated := Example.t0 + 1;
       with_title := JString "   "; with_content := JString "Some content" |};
    {| at_now := Example.t0 + 2; at_created := Example.t0 + 2;
       at_updated := Example.t0 + 2;
       with_title := JString "Valid Title"; with_content := JNull |};
    {| at_now := Example.t0 + 3; at_created := Example.t0 + 3;
       at_updated := Example.t0 + 3;
       with_title := JString "Project Ideas"; with_content := JString "y" |};
    {| at_now := Example.t0 + 4; at_created := Example.t0 + 4;
       at_updated := Example.t0 + 4;
       with_title := JString "Shopping List"; with_content := JString "z" |};
    {| at_now := Example.t0 + 5; at_created := Example.t0 + 5;
       at_updated := Example.t0 + 5;
       with_title := JString "Meeting agenda"; with_content := JString "w" |} ].

End Example2.
(** ** Strings *)

Section StringFacts.

Implicit Types (s p q : string) (c : ascii).

Lemma is_empty_true s : is_empty s = true ↔ s = "".
Proof. unfold is_empty. apply String.eqb_eq. Qed.

Lemma is_empty_false s : is_empty s = false ↔ s ≠ "".
Proof. unfold is_empty. apply String.eqb_neq. Qed.

Lemma trimStart_head s c r :
  Js.trimStart s = String c r → Js.isWhiteSpace c = false.
Proof.
  induction s as [|d s IH]; simpl; [discriminate|].
  destruct (Js.isWhiteSpace d) eqn:E; [exact IH|].
  intros [= <- _]. exact E.
Qed.

Lemma trimEnd_head c s :
  Js.isWhiteSpace c = false → ∃ r, Js.trimEnd (String c s) = String c r.
Proof.
  intros Hc. simpl. destruct (Js.trimEnd s); rewrite ?Hc; eauto.
Qed.

Lemma trimEnd_last s c :
  Text.last_char (Js.trimEnd s) = Some c → Js.isWhiteSpace c = false.
Proof.
  induction s as [|d s IH]; simpl; [discriminate|].
  destruct (Js.trimEnd s) as [|e r] eqn:E.
  - destruct (Js.isWhiteSpace d) eqn:Hd; simpl; [discriminate|].
    intros [= <-]. exact Hd.
  - exact IH.
Qed.

(** A non-empty result of [trim] is a well-formed text. *)
Lemma trim_well_formed s : Js.trim s ≠ "" → Text.well_formed (Js.trim s) = true.
Proof.
  unfold Js.trim. intros Hne.
  destruct (Js.trimStart s) as [|c r] eqn:Hs; [done|].
  pose proof (trimStart_head _ _ _ Hs) as Hc.
  destruct (trimEnd_head c r Hc) as [r' Hr'].
  pose proof (trimEnd_last (String c r)) as Hlast.
  rewrite Hr' in Hlast |- *.
  unfold Text.well_formed, Text.starts_with_whitespace, Text.ends_with_whitespace.
  cbn [is_empty String.eqb Text.all_whitespace Text.first_char negb andb].
  rewrite Hc. cbn [negb andb].
  destruct (Text.last_char (String c r')) as [d|]; [|done].
  by rewrite (Hlast d eq_refl).
Qed.

Lemma well_formed_nonempty s : Text.well_formed s = true → s ≠ "".
Proof. by destruct s. Qed.

(** [trim] leaves a well-formed text as it is. *)
Lemma trimEnd_fixed s :
  Text.ends_with_whitespace s = false → Js.trimEnd s = s.
Proof.
  unfold Text.ends_with_whitespace.
  induction s as [|c s IH]; [done|].
  destruct s as [|d s'].
  - simpl. by intros ->.
  - intros H. change (Text.last_char (String c (String d s')))
      with (Text.last_char (String d s')) in H.
    specialize (IH H).
    change (Js.trimEnd (String c (String d s'))) with
      (match Js.trimEnd (String d s') with
       | EmptyString => if Js.isWhiteSpace c then EmptyString else String c EmptyString
       | r => String c r end).
    by rewrite IH.
Qed.

Lemma trim_well_formed_fixed s : Text.well_formed s = true → Js.trim s = s.
Proof.
  unfold Text.well_formed, Js.trim, Text.starts_with_whitespace.
  intros H. repeat (apply andb_prop in H as [H ?]).
  destruct s as [|c s]; [done|]. simpl in *.
  destruct (Js.isWhiteSpace c); [done|].
  apply trimEnd_fixed. by apply negb_true_iff.
Qed.

Lemma startsWith_spec s p :
  Js.startsWith s p = true ↔ ∃ post, s = p +:+ post.
Proof.
  revert s. induction p as [|c p IH]; intros s; simpl.
  - split; [intros _; by exists s|done].
  - destruct s as [|d s].
    + split; [done|]. intros [post [=]].
    + rewrite andb_true_iff, Ascii.eqb_eq, IH. split.
      * intros [-> [post ->]]. eauto.
      * intros [post [= -> ->]]. eauto.
Qed.

Lemma includes_spec s q :
  Js.includes s q = true ↔ ∃ pre post, s = pre +:+ q +:+ post.
Proof.
  induction s as [|c s IH].
  - simpl. rewrite orb_false_r, startsWith_spec. split.
    + intros [post ->]. by exists "", post.
    + intros [[|d pre] [post H]]; [by exists post|discriminate].
  - cbn [Js.includes]. rewrite orb_true_iff, startsWith_spec, IH. split.
    + intros [[post ->]|(pre & post & ->)].
      * by exists "", post.
      * by exists (String c pre), post.
    + intros [[|d pre] [post H]].
      * left. by exists post.
      * right. injection H as -> ->. eauto.
Qed.

Lemma lowerChar_idem c : Js.lowerChar (Js.lowerChar c) = Js.lowerChar c.
Proof. by destruct c as [[] [] [] [] [] [] [] []]; vm_compute. Qed.

Lemma toLowerCase_idem s :
  Js.toLowerCase (Js.toLowerCase s) = Js.toLowerCase s.
Proof.
  induction s as [|c s IH]; simpl; [done|]. by rewrite lowerChar_idem, IH.
Qed.

Lemma toLowerCase_empty s : Js.toLowerCase s = "" ↔ s = "".
Proof. by destruct s. Qed.

End StringFacts.

(** ** Arrays: [findIndex] and [sort] *)

Section ArrayFacts.

Context {A : Type}.
Implicit Types (p : A → bool) (l : list A).

Lemma findIndex_None p l :
  findIndex p l = None ↔ Forall (λ x, p x = false) l.
Proof.
  induction l as [|x l IH]; simpl.
  - split; [constructor|done].
  - destruct (p x) eqn:E.
    + split; [done|]. intros H. inversion H; congruence.
    + rewrite fmap_None, IH. split.
      * by constructor.
      * intros H. by inversion H.
Qed.

(** [findIndex] returns the position of the first element satisfying [p]. *)
Lemma findIndex_Some p l i :
  findIndex p l = Some i →
  ∃ x, l !! i = Some x ∧ p x = true ∧
       ∀ j y, (j < i)%nat → l !! j = Some y → p y = false.
Proof.
  revert i. induction l as [|x l IH]; intros i; simpl; [done|].
  destruct (p x) eqn:E.
  - intros [= <-]. exists x. repeat split; [done|]. intros j y Hj. lia.
  - intros H. apply fmap_Some in H as (k & Hk & ->).
    destruct (IH _ Hk) as (y & Hy & Hpy & Hfirst).
    exists y. repeat split; [done..|].
    intros [|j] z Hj; simpl.
    + by intros [= <-].
    + apply Hfirst. lia.
Qed.

Lemma findIndex_is_Some p l x :
  x ∈ l → p x = true → is_Some (findIndex p l).
Proof.
  intros Hx Hp. destruct (findIndex p l) eqn:E; [eauto|].
  apply findIndex_None in E. rewrite Forall_forall in E.
  specialize (E x Hx). congruence.
Qed.

(** When a single position satisfies [p], [findIndex] returns it. *)
Lemma findIndex_unique p l i x :
  l !! i = Some x → p x = true →
  (∀ j y, l !! j = Some y → p y = true → j = i) →
  findIndex p l = Some i.
Proof.
  intros Hi Hp Huniq.
  destruct (findIndex_is_Some p l x) as [k Hk]; [by eapply list_elem_of_lookup_2|done|].
  destruct (findIndex_Some _ _ _ Hk) as (y & Hy & Hpy & _).
  by rewrite Hk, (Huniq k y Hy Hpy).
Qed.

Lemma sort_insert_perm (cmp : A → A → Z) x l :
  sort_insert cmp x l ≡ₚ x :: l.
Proof.
  induction l as [|y l IH]; simpl; [done|].
  destruct (cmp x y <=? 0); [done|].
  rewrite IH. apply perm_swap.
Qed.

(** Sorting rearranges the array and neither drops nor duplicates. *)
Lemma sort_perm (cmp : A → A → Z) l : sort cmp l ≡ₚ l.
Proof.
  induction l as [|x l IH]; simpl; [done|].
  by rewrite sort_insert_perm, IH.
Qed.

End ArrayFacts.

Lemma sort_insert_newest_first x l :
  newest_first l → newest_first (sort_insert byUpdatedDesc x l).
Proof.
  unfold newest_first, byUpdatedDesc.
  induction 1 as [|y l Hl IH Hy]; simpl.
  - repeat constructor.
  - destruct (Z.leb_spec (updated_at y - updated_at x) 0) as [Hle|Hgt].
    + constructor; [by constructor|].
      constructor; [lia|].
      eapply Forall_impl; [exact Hy|]. simpl. intros z Hz. lia.
    + constructor; [exact IH|].
      rewrite (sort_insert_perm _ x l). constructor; [lia|exact Hy].
Qed.

(** The comparator of the list and search handlers orders most recent first. *)
Lemma sort_newest_first l : newest_first (sort byUpdatedDesc l).
Proof.
  induction l as [|x l IH]; simpl.
  - constructor.
  - by apply sort_insert_newest_first.
Qed.

(** ** The rate limiter *)

Section Limiter.

Implicit Types (m : gmap string (list Z)) (ip : option string) (now : Z).

(** The middleware prunes with [now - t < window], rejects when
    [MAX_NOTES_PER_MINUTE] timestamps are left and leaves the map as it
    was; otherwise it stores the pruned record followed by [now]. *)
Lemma rateLimiter_eq now ip m :
  rateLimiter now ip m =
    if decide (MAX_NOTES_PER_MINUTE ≤
               length (filter (λ t, (now - t < RATE_LIMIT_WINDOW)%Z)
                         (default [] (m !! clientId ip))))%nat
    then (false, m)
    else (true, recorded now ip m).
Proof.
  unfold rateLimiter, recorded.
  destruct (m !! clientId ip) as [l|] eqn:E.
  - rewrite E. simpl. by case_decide.
  - rewrite lookup_insert_eq. simpl.
    by rewrite insert_insert_eq.
Qed.

Lemma rateLimiter_rejects now ip m m' :
  rateLimiter now ip m = (false, m') → m' = m.
Proof. rewrite rateLimiter_eq. case_decide; congruence. Qed.

Lemma rateLimiter_accepts now ip m m' :
  rateLimiter now ip m = (true, m') → m' = recorded now ip m.
Proof. rewrite rateLimiter_eq. case_decide; congruence. Qed.

(** A request of one client leaves the records of the others alone. *)
Lemma rateLimiter_other_client now ip m c :
  c ≠ clientId ip → (rateLimiter now ip m).2 !! c = m !! c.
Proof.
  intros Hc. rewrite rateLimiter_eq. case_decide; simpl; [done|].
  unfold recorded. by rewrite lookup_insert_ne.
Qed.

Lemma filter_window_all now (l : list Z) :
  Forall (λ t, now - t < RATE_LIMIT_WINDOW) l →
  filter (λ t, now - t < RATE_LIMIT_WINDOW) l = l.
Proof.
  induction 1 as [|t l Ht _ IH]; [done|].
  by rewrite filter_cons_True, IH.
Qed.

Lemma filter_window_none now (l : list Z) :
  Forall (λ t, RATE_LIMIT_WINDOW ≤ now - t) l →
  filter (λ t, now - t < RATE_LIMIT_WINDOW) l = [].
Proof.
  induction 1 as [|t l Ht _ IH]; [done|].
  rewrite filter_cons_False; [done|lia].
Qed.

End Limiter.

(** ** The handlers, case by case *)

Section Handlers.

Implicit Types (s : State) (t c : JsValue) (now : Z) (ip : option string).

Lemma state_eta s :
  {| notes := notes s; noteIdCounter := noteIdCounter s;
     rateLimitMap := rateLimitMap s |} = s.
Proof. by destruct s. Qed.

Lemma isValid_eq t c :
  isValid (validateNoteInput t c) =
    negb (is_empty (cleanString t)) && negb (is_empty (cleanString c)).
Proof.
  unfold validateNoteInput. simpl.
  by destruct (is_empty (cleanString t)), (is_empty (cleanString c)).
Qed.

Lemma cleanString_well_formed t :
  is_empty (cleanString t) = false → Text.well_formed (cleanString t) = true.
Proof.
  rewrite is_empty_false. destruct t; simpl; try done.
  apply trim_well_formed.
Qed.

Lemma cleanString_non_string t :
  provided_non_string t = true → cleanString t = "".
Proof. by destruct t. Qed.

Lemma post_notes_rate_limited now tc tu ip t c s :
  (rateLimiter now ip (rateLimitMap s)).1 = false →
  post_notes now tc tu ip t c s = (RateLimited, s).
Proof.
  unfold post_notes. destruct (rateLimiter _ _ _) as [next m] eqn:E.
  simpl. intros ->. simpl.
  by rewrite (rateLimiter_rejects _ _ _ _ E), state_eta.
Qed.

Lemma post_notes_invalid now tc tu ip t c s :
  (rateLimiter now ip (rateLimitMap s)).1 = true →
  isValid (validateNoteInput t c) = false →
  post_notes now tc tu ip t c s =
    (ValidationFailed (errors (validateNoteInput t c)),
     {| notes := notes s; noteIdCounter := noteIdCounter s;
        rateLimitMap := recorded now ip (rateLimitMap s) |}).
Proof.
  unfold post_notes. destruct (rateLimiter _ _ _) as [next m] eqn:E.
  simpl. intros -> ->. simpl.
  by rewrite (rateLimiter_accepts _ _ _ _ E).
Qed.

Lemma post_notes_created now tc tu ip t c s :
  (rateLimiter now ip (rateLimitMap s)).1 = true →
  isValid (validateNoteInput t c) = true →
  post_notes now tc tu ip t c s =
    (Created {| id := noteIdCounter s; title := cleanString t;
                content := cleanString c;
                created_at := tc; updated_at := tu |},
     {| notes := notes s ++ [{| id := noteIdCounter s; title := cleanString t;
                                content := cleanString c;
                                created_at := tc; updated_at := tu |}];
        noteIdCounter := noteIdCounter s + 1;
        rateLimitMap := recorded now ip (rateLimitMap s) |}).
Proof.
  unfold post_notes. destruct (rateLimiter _ _ _) as [next m] eqn:E.
  simpl. intros -> ->. simpl.
  by rewrite (rateLimiter_accepts _ _ _ _ E).
Qed.

Lemma put_note_not_found now noteId t c s :
  findIndex (λ note, strict_eq (id note) noteId) (notes s) = None →
  put_note now noteId t c s = (NotFound noteId, s).
Proof. unfold put_note. by intros ->. Qed.

(** The update handler once the note is found. *)
Lemma put_note_found now noteId t c s i n :
  findIndex (λ note, strict_eq (id note) noteId) (notes s) = Some i →
  notes s !! i = Some n →
  put_note now noteId t c s =
    if negb (is_undefined t) && is_empty (cleanString t)
    then (ValidationFailed ["Title cannot be empty or just spaces"], s)
    else if negb (is_undefined c) && is_empty (cleanString c)
    then (ValidationFailed ["Content cannot be empty or just spaces"], s)
    else if negb (changes t (title n) || changes c (content n))
    then (NoChanges n, s)
    else
      let u := {| new_title := if changes t (title n)
                               then Some (cleanString t) else None;
                  new_content := if changes c (content n)
                                 then Some (cleanString c) else None |} in
      (Updated (spread n u now) (keys u),
       {| notes := <[i := spread n u now]> (notes s);
          noteIdCounter := noteIdCounter s;
          rateLimitMap := rateLimitMap s |}).
Proof. unfold put_note. by intros -> ->. Qed.

Lemma put_note_index now noteId t c s i :
  findIndex (λ note, strict_eq (id note) noteId) (notes s) = Some i →
  ∃ n, notes s !! i = Some n ∧ noteId = Num (id n).
Proof.
  intros H. destruct (findIndex_Some _ _ _ H) as (n & Hn & Heq & _).
  exists n. split; [done|].
  destruct noteId; simpl in Heq; try done.
  by apply Z.eqb_eq in Heq as ->.
Qed.

(** What a request can do to the note store: nothing, append one note
    carrying the counter as its id, or replace one note in place. *)
Lemma handle_store e s :
  (notes (handle e s).2 = notes s ∧
   noteIdCounter (handle e s).2 = noteIdCounter s)
  ∨ (∃ n, notes (handle e s).2 = notes s ++ [n] ∧
          id n = noteIdCounter s ∧ note_well_formed n ∧
          noteIdCounter (handle e s).2 = noteIdCounter s + 1)
  ∨ (∃ i n n', notes s !! i = Some n ∧
          notes (handle e s).2 = <[i := n']> (notes s) ∧
          id n' = id n ∧ created_at n' = created_at n ∧
          (note_well_formed n → note_well_formed n') ∧
          noteIdCounter (handle e s).2 = noteIdCounter s).
Proof.
  destruct e as [now tc tu ip t c| |now noteId t c|q]; simpl.
  - destruct (rateLimiter now ip (rateLimitMap s)).1 eqn:Hl.
    + destruct (isValid (validateNoteInput t c)) eqn:Hv.
      * rewrite post_notes_created by done. right; left.
        eexists. simpl. repeat split; try done.
        all: rewrite isValid_eq in Hv; apply andb_prop in Hv as [H1 H2].
        all: apply negb_true_iff in H1, H2.
        all: by apply cleanString_well_formed.
      * rewrite post_notes_invalid by done. by left.
    + rewrite post_notes_rate_limited by done. by left.
  - by left.
  - destruct (findIndex (λ note, strict_eq (id note) noteId) (notes s))
      as [i|] eqn:Hi.
    + destruct (put_note_index now _ t c _ _ Hi) as (n & Hn & _).
      rewrite (put_note_found _ _ _ _ _ _ _ Hi Hn).
      destruct (negb (is_undefined t) && is_empty (cleanString t)) eqn:Ht;
        [by left|].
      destruct (negb (is_undefined c) && is_empty (cleanString c)) eqn:Hc;
        [by left|].
      destruct (negb (changes t (title n) || changes c (content n)));
        [by left|].
      right; right. exists i, n. eexists. simpl.
      repeat split; try done.
      all: destruct H as [Hwt Hwc]; unfold spread, changes; simpl.
      * destruct (is_undefined t); simpl in *; [done|].
        destruct (String.eqb _ _); simpl; [done|].
        by apply cleanString_well_formed.
      * destruct (is_undefined c); simpl in *; [done|].
        destruct (String.eqb _ _); simpl; [done|].
        by apply cleanString_well_formed.
    + rewrite put_note_not_found by done. by left.
  - unfold get_search. destruct (negb (truthy q)); [by left|].
    destruct (is_empty _); by left.
Qed.

(** The limiter decides whether a create is answered with RateLimited. *)
Lemma post_notes_rate_limited_iff now tc tu ip t c s :
  (post_notes now tc tu ip t c s).1 = RateLimited ↔
  (rateLimiter now ip (rateLimitMap s)).1 = false.
Proof.
  split.
  - destruct (rateLimiter now ip (rateLimitMap s)).1 eqn:Hl; [|done].
    destruct (isValid (validateNoteInput t c)) eqn:Hv.
    + by rewrite post_notes_created.
    + by rewrite post_notes_invalid.
  - intros H. by rewrite post_notes_rate_limited.
Qed.

End Handlers.

(** ** Invariants of the note store *)

Section Invariants.

Implicit Types (s : State) (e : Event).

Lemma handle_preserves_ids e s :
  ids_sequential s → ids_sequential (handle e s).2.
Proof.
  intros [Hids Hcnt]. unfold ids_sequential.
  destruct (handle_store e s)
    as [[-> ->]|[(n & -> & Hn & _ & ->)|(i & n & n' & Hi & -> & Hid & _ & _ & ->)]].
  - done.
  - rewrite fmap_app, length_app, Hids, Nat.add_1_r, seqZ_S. simpl.
    rewrite Hn, Hcnt. split; [done|lia].
  - rewrite list_fmap_insert, length_insert, Hid. split; [|done].
    rewrite <- Hids. apply list_insert_id. by rewrite list_lookup_fmap, Hi.
Qed.

Lemma handle_preserves_texts e s :
  texts_well_formed s → texts_well_formed (handle e s).2.
Proof.
  unfold texts_well_formed. intros Hwf.
  destruct (handle_store e s)
    as [[-> _]|[(n & -> & _ & Hn & _)|(i & n & n' & Hi & -> & _ & _ & Hn & _)]].
  - done.
  - apply Forall_app. split; [done|]. by constructor.
  - apply Forall_insert; [done|]. apply Hn.
    rewrite Forall_forall in Hwf. apply Hwf. by eapply list_elem_of_lookup_2.
Qed.

Lemma reachable_ids s : reachable s → ids_sequential s.
Proof.
  induction 1 as [|e s _ IH]; [|by apply handle_preserves_ids].
  by split.
Qed.

Lemma reachable_texts s : reachable s → texts_well_formed s.
Proof.
  induction 1 as [|e s _ IH]; [|by apply handle_preserves_texts].
  constructor.
Qed.

Lemma reachable_run es s : reachable s → reachable (run es s).2.
Proof.
  revert s. induction es as [|e es IH]; intros s Hs; simpl; [done|].
  destruct (handle e s) as [r s'] eqn:E.
  specialize (IH s'). destruct (run es s') as [rs s'']. simpl in *.
  apply IH. change s' with (r, s').2. rewrite <- E. by constructor.
Qed.

Lemma StronglySorted_seqZ m (k : nat) :
  StronglySorted Z.lt (seqZ m (Z.of_nat k)).
Proof.
  revert m. induction k as [|k IH]; intros m.
  - rewrite seqZ_nil by lia. constructor.
  - rewrite seqZ_cons by lia.
    replace (Z.pred (Z.of_nat (S k))) with (Z.of_nat k) by lia.
    constructor; [apply IH|].
    apply Forall_seqZ. lia.
Qed.

(** With sequential ids, the note at position [i] has id [i + 1]. *)
Lemma ids_sequential_lookup s i n :
  ids_sequential s → notes s !! i = Some n → id n = 1 + Z.of_nat i.
Proof.
  intros [Hids _] Hn.
  assert ((id <$> notes s) !! i = Some (id n)) as H
    by by rewrite list_lookup_fmap, Hn.
  rewrite Hids in H. by apply lookup_seqZ in H as [-> _].
Qed.

(** With sequential ids, a lookup by id lands on the note carrying it. *)
Lemma ids_sequential_findIndex s i n :
  ids_sequential s → notes s !! i = Some n →
  findIndex (λ note, strict_eq (id note) (Num (id n))) (notes s) = Some i.
Proof.
  intros Hids Hn. apply (findIndex_unique _ _ _ n); [done|simpl; lia|].
  intros j y Hy Heq. simpl in Heq. apply Z.eqb_eq in Heq.
  rewrite (ids_sequential_lookup _ _ _ Hids Hn) in Heq.
  rewrite (ids_sequential_lookup _ _ _ Hids Hy) in Heq. lia.
Qed.

End Invariants.

(** ** Rejected requests and the state *)

(** C1, as stated, fails: a create with a blank title from a fresh client
    is rejected with ValidationFailed, yet the rate limiter has recorded the
    request before validation ran. *)
Lemma rejected_create_is_recorded :
  (handle Example.blank_title initial).1 =
    ValidationFailed ["Title is required and cannot be empty or just spaces"] ∧
  rateLimitMap initial !! "203.0.113.7" = None ∧
  rateLimitMap (handle Example.blank_title initial).2 !! "203.0.113.7" =
    Some [Example.t0] ∧
  rateLimitMap (handle Example.blank_title initial).2 ≠ rateLimitMap initial.
Proof.
  assert (rateLimitMap (handle Example.blank_title initial).2 !! "203.0.113.7" =
          Some [Example.t0]) as H by by vm_compute.
  split; [by vm_compute|]. split; [done|]. split; [exact H|].
  intros Heq. by rewrite Heq in H.
Qed.

(** C1 (amended): a rejected request (ValidationFailed, RateLimited,
    NotFound, MissingQuery, InvalidQuery) leaves the notes and the id counter
    as they were.  The rate-limiter state is as it was too, except after a
    create rejected with ValidationFailed: there the record of the requesting
    client has become its timestamps younger than the window followed by
    [now], and the records of the other clients are as before. *)
Theorem rejection_frame e s :
  is_rejection (handle e s).1 = true →
  notes (handle e s).2 = notes s ∧
  noteIdCounter (handle e s).2 = noteIdCounter s ∧
  rateLimitMap (handle e s).2 =
    limiter_after_rejection e (handle e s).1 (rateLimitMap s) ∧
  ∀ client,
    (∀ now tc tu ip t c, e = PostNotes now tc tu ip t c → clientId ip ≠ client) →
    rateLimitMap (handle e s).2 !! client = rateLimitMap s !! client.
Proof.
  destruct e as [now tc tu ip t c| |now noteId t c|q]; simpl.
  - destruct (rateLimiter now ip (rateLimitMap s)).1 eqn:Hl.
    + destruct (isValid (validateNoteInput t c)) eqn:Hv.
      * by rewrite post_notes_created.
      * rewrite post_notes_invalid by done. simpl. intros _.
        split; [done|]. split; [done|]. split; [done|].
        intros client Hne. unfold recorded.
        apply lookup_insert_ne. by eapply Hne.
    + by rewrite post_notes_rate_limited.
  - done.
  - destruct (findIndex (λ note, strict_eq (id note) noteId) (notes s))
      as [i|] eqn:Hi.
    + destruct (put_note_index now _ t c _ _ Hi) as (n & Hn & _).
      rewrite (put_note_found _ _ _ _ _ _ _ Hi Hn).
      repeat case_match; simpl; done.
    + by rewrite put_note_not_found.
  - unfold get_search. repeat case_match; simpl; done.
Qed.

Lemma rejection_frame_witness :
  notes (handle Example.blank_title initial).2 = [] ∧
  noteIdCounter (handle Example.blank_title initial).2 = 1 ∧
  rateLimitMap (handle Example.blank_title initial).2 =
    recorded Example.t0 Example.client ∅.
Proof.
  destruct (rejection_frame Example.blank_title initial) as (H1 & H2 & H3 & _).
  - reflexivity.
  - split; [exact H1|]. split; [exact H2|exact H3].
Defined.

(** ** The sliding window *)

Section Window.

Implicit Types (m : gmap string (list Z)) (ip : option string) (now : Z).

Lemma recorded_lookup now ip m :
  default [] (recorded now ip m !! clientId ip) =
    filter (λ t, now - t < RATE_LIMIT_WINDOW) (default [] (m !! clientId ip))
    ++ [now].
Proof. unfold recorded. by rewrite lookup_insert_eq. Qed.

Lemma checks_accept now ip m rest :
  (length (filter (λ t, (now - t < RATE_LIMIT_WINDOW)%Z)
             (default [] (m !! clientId ip))) < MAX_NOTES_PER_MINUTE)%nat →
  checks ip (now :: rest) m = true :: checks ip rest (recorded now ip m).
Proof.
  intros H. simpl. rewrite rateLimiter_eq. case_decide; [lia|done].
Qed.

Lemma checks_reject now ip m rest :
  (MAX_NOTES_PER_MINUTE ≤
   length (filter (λ t, (now - t < RATE_LIMIT_WINDOW)%Z)
             (default [] (m !! clientId ip))))%nat →
  checks ip (now :: rest) m = false :: checks ip rest m.
Proof.
  intros H. simpl. rewrite rateLimiter_eq. case_decide; [done|lia].
Qed.

End Window.

(** C2, as stated, fails at the edge of the window: a timestamp exactly one
    window old is not older than [now - window], so the specified pruning
    keeps it, five timestamps remain and the request would be rejected; the
    middleware drops it and accepts. *)
Lemma boundary_timestamp_is_dropped :
  rateLimitMap Example.busy !! "203.0.113.7" = Some Example.busy_record ∧
  specified_remaining (Example.t0 + RATE_LIMIT_WINDOW) Example.busy_record =
    Example.busy_record ∧
  specified_accepts (Example.t0 + RATE_LIMIT_WINDOW) Example.busy_record = false ∧
  rateLimiter (Example.t0 + RATE_LIMIT_WINDOW) Example.client
    (rateLimitMap Example.busy) =
    (true,
     <["203.0.113.7" :=
         [Example.t0 + 1; Example.t0 + 2; Example.t0 + 3; Example.t0 + 4;
          Example.t0 + RATE_LIMIT_WINDOW]]> (rateLimitMap Example.busy)).
Proof.
  assert (rateLimitMap Example.busy !! "203.0.113.7" = Some Example.busy_record)
    as H by by vm_compute.
  split; [exact H|]. split; [by vm_compute|]. split; [by vm_compute|].
  rewrite rateLimiter_eq. unfold recorded. simpl clientId.
  rewrite H. by vm_compute.
Qed.

(** C2 (amended): the check on create first drops from the client's record
    every timestamp that is at least one window old ([now - t >= 60000], so
    a timestamp exactly 60 seconds old is dropped too), then rejects with
    RateLimited if at least 5 timestamps remain and leaves the record as it
    was, and otherwise stores the remaining timestamps followed by [now] and
    accepts; a create is answered RateLimited exactly when the check
    rejects.  Consequently, of six checks of one client within one window the
    first five accept and the sixth rejects, and a seventh check made once
    the window has elapsed since the earlier accepts is accepted. *)
Theorem rateLimiter_sliding_window ip m t1 t2 t3 t4 t5 t6 t7 :
  Forall (λ t, RATE_LIMIT_WINDOW ≤ t1 - t) (default [] (m !! clientId ip)) →
  t1 ≤ t2 → t2 ≤ t3 → t3 ≤ t4 → t4 ≤ t5 → t5 ≤ t6 →
  t6 - t1 < RATE_LIMIT_WINDOW →
  RATE_LIMIT_WINDOW ≤ t7 - t5 →
  (∀ now m0,
     rateLimiter now ip m0 =
       let remaining :=
         filter (λ t, ¬ RATE_LIMIT_WINDOW ≤ now - t)
           (default [] (m0 !! clientId ip)) in
       if decide (5 ≤ length remaining)%nat
       then (false, m0)
       else (true, <[clientId ip := remaining ++ [now]]> m0)) ∧
  (∀ now tc tu t c s,
     (post_notes now tc tu ip t c s).1 = RateLimited ↔
     (rateLimiter now ip (rateLimitMap s)).1 = false) ∧
  checks ip [t1; t2; t3; t4; t5; t6; t7] m =
    [true; true; true; true; true; false; true].
Proof.
  intros Hfresh H12 H23 H34 H45 H56 Hin Hout.
  split; [|split; [intros; apply post_notes_rate_limited_iff|]].
  - intros now m0. rewrite rateLimiter_eq. unfold recorded. simpl.
    assert (filter (λ t, now - t < RATE_LIMIT_WINDOW)
              (default [] (m0 !! clientId ip)) =
            filter (λ t, ¬ RATE_LIMIT_WINDOW ≤ now - t)
              (default [] (m0 !! clientId ip))) as ->; [|done].
    apply list_filter_iff. intros t. lia.
  - set (m1 := recorded t1 ip m). set (m2 := recorded t2 ip m1).
    set (m3 := recorded t3 ip m2). set (m4 := recorded t4 ip m3).
    set (m5 := recorded t5 ip m4).
    assert (default [] (m1 !! clientId ip) = [t1]) as R1.
    { unfold m1. by rewrite recorded_lookup, filter_window_none. }
    assert (default [] (m2 !! clientId ip) = [t1; t2]) as R2.
    { unfold m2. rewrite recorded_lookup, R1, filter_window_all; [done|].
      repeat constructor; lia. }
    assert (default [] (m3 !! clientId ip) = [t1; t2; t3]) as R3.
    { unfold m3. rewrite recorded_lookup, R2, filter_window_all; [done|].
      repeat constructor; lia. }
    assert (default [] (m4 !! clientId ip) = [t1; t2; t3; t4]) as R4.
    { unfold m4. rewrite recorded_lookup, R3, filter_window_all; [done|].
      repeat constructor; lia. }
    assert (default [] (m5 !! clientId ip) = [t1; t2; t3; t4; t5]) as R5.
    { unfold m5. rewrite recorded_lookup, R4, filter_window_all; [done|].
      repeat constructor; lia. }
    rewrite checks_accept; fold m1.
    2: { rewrite filter_window_none by done. simpl. unfold MAX_NOTES_PER_MINUTE. lia. }
    rewrite checks_accept; fold m2.
    2: { rewrite R1, filter_window_all by (repeat constructor; lia).
         simpl. unfold MAX_NOTES_PER_MINUTE. lia. }
    rewrite checks_accept; fold m3.
    2: { rewrite R2, filter_window_all by (repeat constructor; lia).
         simpl. unfold MAX_NOTES_PER_MINUTE. lia. }
    rewrite checks_accept; fold m4.
    2: { rewrite R3, filter_window_all by (repeat constructor; lia).
         simpl. unfold MAX_NOTES_PER_MINUTE. lia. }
    rewrite checks_accept; fold m5.
    2: { rewrite R4, filter_window_all by (repeat constructor; lia).
         simpl. unfold MAX_NOTES_PER_MINUTE. lia. }
    rewrite checks_reject.
    2: { rewrite R5, filter_window_all by (repeat constructor; lia).
         simpl. unfold MAX_NOTES_PER_MINUTE. lia. }
    rewrite checks_accept; [done|].
    rewrite R5, filter_window_none by (repeat constructor; lia).
    simpl. unfold MAX_NOTES_PER_MINUTE. lia.
Qed.

Lemma rateLimiter_sliding_window_witness :
  checks Example.client
    [Example.t0; Example.t0 + 1; Example.t0 + 2; Example.t0 + 3;
     Example.t0 + 4; Example.t0 + 5; Example.t0 + 4 + RATE_LIMIT_WINDOW] ∅ =
    [true; true; true; true; true; false; true].
Proof.
  apply (rateLimiter_sliding_window Example.client ∅
           Example.t0 (Example.t0 + 1) (Example.t0 + 2) (Example.t0 + 3)
           (Example.t0 + 4) (Example.t0 + 5)
           (Example.t0 + 4 + RATE_LIMIT_WINDOW)).
  - rewrite lookup_empty. constructor.
  - lia.
  - lia.
  - lia.
  - lia.
  - lia.
  - unfold RATE_LIMIT_WINDOW. lia.
  - lia.
Defined.

(** ** Creating a note *)

(** A create that passes the limiter and the validation stores and returns
    a note with the trimmed texts and the two clock readings, and the lookup
    by the returned id finds that note. *)
Lemma create_then_find now tc tu ip t c s :
  ids_sequential s →
  (rateLimiter now ip (rateLimitMap s)).1 = true →
  cleanString t ≠ "" → cleanString c ≠ "" →
  ∃ n s',
    post_notes now tc tu ip t c s = (Created n, s') ∧
    id n = noteIdCounter s ∧
    title n = cleanString t ∧ content n = cleanString c ∧
    created_at n = tc ∧ updated_at n = tu ∧
    notes s' = notes s ++ [n] ∧
    find_by_id (id n) s' = Some n.
Proof.
  intros Hids Hl Ht Hc.
  assert (isValid (validateNoteInput t c) = true) as Hv.
  { rewrite isValid_eq. apply is_empty_false in Ht, Hc. by rewrite Ht, Hc. }
  pose proof (handle_preserves_ids (PostNotes now tc tu ip t c) s Hids) as Hids'.
  simpl in Hids'. rewrite post_notes_created in Hids' |- * by done.
  set (n := {| id := noteIdCounter s; title := cleanString t;
               content := cleanString c; created_at := tc; updated_at := tu |})
    in *.
  set (s' := {| notes := notes s ++ [n]; noteIdCounter := noteIdCounter s + 1;
                rateLimitMap := recorded now ip (rateLimitMap s) |}) in *.
  assert (notes s' !! length (notes s) = Some n) as Hn.
  { unfold s'. cbn [notes]. by rewrite lookup_app_r, Nat.sub_diag. }
  exists n, s'. do 7 (split; [done|]).
  unfold find_by_id.
  by rewrite (ids_sequential_findIndex s' _ n Hids' Hn).
Qed.

(** C3: the note literal reads the clock twice, [created_at] with the first
    [new Date()] and [updated_at] with the second.  When the millisecond
    clock ticks between the two readings the created note carries two
    different timestamps, although the texts are trimmed and the lookup by
    the returned id finds the note. *)
Theorem create_reads_clock_twice :
  ∃ n s',
    post_notes Example.t0 Example.t0 (Example.t0 + 1) Example.client
      (JString "  Meeting Notes  ") (JString " Agenda ") initial
      = (Created n, s') ∧
    title n = "Meeting Notes" ∧ content n = "Agenda" ∧
    find_by_id (id n) s' = Some n ∧
    created_at n = Example.t0 ∧ updated_at n = Example.t0 + 1 ∧
    created_at n ≠ updated_at n.
Proof.
  eexists _, _. split; [by vm_compute|].
  repeat split; try by vm_compute.
Qed.

(** ** Stored texts *)

Lemma reachable_two_notes : reachable Example.two_notes.
Proof. apply reachable_run, reachable_initial. Qed.

Lemma reachable_busy : reachable Example.busy.
Proof. apply reachable_run, reachable_initial. Qed.

(** C4: in every reachable state the title and the content of every stored
    note are non-empty, not whitespace-only and free of leading and trailing
    whitespace, and whatever request is served next (create and update are
    the only ones that write notes) the same holds afterwards. *)
Theorem stored_texts_well_formed s e :
  reachable s →
  Forall (λ n, Text.well_formed (title n) = true ∧
               Text.well_formed (content n) = true) (notes s) ∧
  Forall (λ n, Text.well_formed (title n) = true ∧
               Text.well_formed (content n) = true) (notes (handle e s).2).
Proof.
  intros Hs. split.
  - by apply reachable_texts.
  - by apply handle_preserves_texts, reachable_texts.
Qed.

Lemma stored_texts_well_formed_witness :
  reachable Example.two_notes ∧
  Forall (λ n, Text.well_formed (title n) = true ∧
               Text.well_formed (content n) = true)
    (notes (handle Example.retitle Example.two_notes).2).
Proof.
  split; [exact reachable_two_notes|].
  apply (stored_texts_well_formed Example.two_notes Example.retitle).
  exact reachable_two_notes.
Defined.

(** ** Note ids *)

(** C5: ids are handed out sequentially from 1.  In every reachable state
    the stored ids are 1, 2, ..., in creation order, hence pairwise distinct
    and strictly increasing; the counter is one past the last id, every
    stored id lies below it, and a create served next assigns the counter,
    an id no stored note carries. *)
Theorem ids_assigned_sequentially s :
  reachable s →
  noteIdCounter initial = 1 ∧
  id <$> notes s = seqZ 1 (Z.of_nat (length (notes s))) ∧
  noteIdCounter s = 1 + Z.of_nat (length (notes s)) ∧
  NoDup (id <$> notes s) ∧
  StronglySorted Z.lt (id <$> notes s) ∧
  Forall (λ n, 1 ≤ id n < noteIdCounter s) (notes s) ∧
  ∀ e n, (handle e s).1 = Created n →
         id n = noteIdCounter s ∧ (id n ∉ id <$> notes s) ∧
         notes (handle e s).2 = (notes s ++ [n]).
Proof.
  intros Hs. destruct (reachable_ids s Hs) as [Hids Hcnt].
  split; [done|]. split; [done|]. split; [done|].
  split; [rewrite Hids; apply NoDup_seqZ|].
  split; [rewrite Hids; apply StronglySorted_seqZ|].
  assert (Forall (λ n, 1 ≤ id n < noteIdCounter s) (notes s)) as Hlt.
  { apply Forall_forall. intros n Hn.
    assert (id n ∈ id <$> notes s) as Hin by by apply list_elem_of_fmap_2.
    rewrite Hids in Hin. apply elem_of_seqZ in Hin. lia. }
  split; [exact Hlt|].
  intros e n He.
  assert (id n = noteIdCounter s ∧ notes (handle e s).2 = notes s ++ [n])
    as [Hid Hn].
  { destruct e as [now tc tu ip t c| |now noteId t c|q]; simpl in *.
    - destruct (rateLimiter now ip (rateLimitMap s)).1 eqn:Hl.
      + destruct (isValid (validateNoteInput t c)) eqn:Hv.
        * rewrite post_notes_created in He |- * by done.
          simpl in *. by injection He as <-.
        * by rewrite post_notes_invalid in He.
      + by rewrite post_notes_rate_limited in He.
    - done.
    - unfold put_note in He. repeat case_match; simpl in He; done.
    - unfold get_search in He. repeat case_match; simpl in He; done. }
  split; [done|]. split; [|done].
  intros Hin. apply list_elem_of_fmap in Hin as (n' & Heq & Hn').
  rewrite Forall_forall in Hlt. specialize (Hlt n' Hn'). lia.
Qed.

Lemma ids_assigned_sequentially_witness :
  reachable Example.two_notes ∧
  id <$> notes Example.two_notes = [1; 2] ∧
  noteIdCounter Example.two_notes = 3.
Proof.
  split; [exact reachable_two_notes|].
  destruct (ids_assigned_sequentially Example.two_notes reachable_two_notes)
    as (_ & H1 & H2 & _).
  split; [exact H1|exact H2].
Defined.

(** ** Updating a note *)

(** C6: for a note stored in a reachable state, an update in which every
    provided field equals, once cleaned, the stored value answers "no
    changes" with the stored note and leaves the whole state, [updated_at]
    included, as it was. *)
Theorem update_without_changes s now i n t c :
  reachable s →
  notes s !! i = Some n →
  t = JUndefined ∨ cleanString t = title n →
  c = JUndefined ∨ cleanString c = content n →
  put_note now (Num (id n)) t c s = (NoChanges n, s) ∧
  notes (put_note now (Num (id n)) t c s).2 !! i = Some n.
Proof.
  intros Hs Hn Ht Hc.
  assert (put_note now (Num (id n)) t c s = (NoChanges n, s)) as ->;
    [|by split].
  pose proof (reachable_texts s Hs) as Hwf.
  unfold texts_well_formed in Hwf. rewrite Forall_forall in Hwf.
  destruct (Hwf n) as [Hwt Hwc]; [by eapply list_elem_of_lookup_2|].
  apply well_formed_nonempty, is_empty_false in Hwt, Hwc.
  rewrite (put_note_found now _ t c s i n
             (ids_sequential_findIndex s i n (reachable_ids s Hs) Hn) Hn).
  assert (negb (is_undefined t) && is_empty (cleanString t) = false) as ->.
  { destruct Ht as [->| ->]; [done|]. rewrite Hwt. apply andb_false_r. }
  assert (negb (is_undefined c) && is_empty (cleanString c) = false) as ->.
  { destruct Hc as [->| ->]; [done|]. rewrite Hwc. apply andb_false_r. }
  assert (changes t (title n) = false) as ->.
  { unfold changes. destruct Ht as [->| ->]; [done|].
    rewrite String.eqb_refl. apply andb_false_r. }
  assert (changes c (content n) = false) as ->.
  { unfold changes. destruct Hc as [->| ->]; [done|].
    rewrite String.eqb_refl. apply andb_false_r. }
  done.
Qed.

Lemma update_without_changes_witness :
  put_note (Example.t0 + 900) (Num 1)
    (JString "  Meeting Notes ") JUndefined Example.two_notes =
    (NoChanges Example.note1, Example.two_notes).
Proof.
  apply (update_without_changes Example.two_notes (Example.t0 + 900) 0
           Example.note1 (JString "  Meeting Notes ") JUndefined).
  - exact reachable_two_notes.
  - reflexivity.
  - right. reflexivity.
  - left. reflexivity.
Defined.

(** C7: a successful update reports in [updated_fields] exactly the fields
    whose cleaned provided value differs from the stored value, title before
    content, and at least one; a changed title with an unchanged or absent
    content gives ["title"].  The listed fields take the cleaned values, the
    others keep the stored ones, [id] and [created_at] are kept,
    [updated_at] becomes the clock reading, and the note is replaced in
    place while the rest of the state is kept. *)
Theorem update_reports_changed_fields s now noteId t c n' fields s' :
  put_note now noteId t c s = (Updated n' fields, s') →
  ∃ i n,
    notes s !! i = Some n ∧ noteId = Num (id n) ∧
    fields = (if changes t (title n) then ["title"] else []) ++
             (if changes c (content n) then ["content"] else []) ∧
    fields ≠ [] ∧
    (changes t (title n) = true → changes c (content n) = false →
     fields = ["title"]) ∧
    title n' = (if changes t (title n) then cleanString t else title n) ∧
    content n' = (if changes c (content n) then cleanString c else content n) ∧
    id n' = id n ∧
    created_at n' = created_at n ∧
    updated_at n' = now ∧
    notes s' = <[i := n']> (notes s) ∧
    noteIdCounter s' = noteIdCounter s ∧
    rateLimitMap s' = rateLimitMap s.
Proof.
  intros H.
  destruct (findIndex (λ note, strict_eq (id note) noteId) (notes s))
    as [i|] eqn:Hi; [|by rewrite put_note_not_found in H].
  destruct (put_note_index now _ t c _ _ Hi) as (n & Hn & ->).
  rewrite (put_note_found _ _ _ _ _ _ _ Hi Hn) in H.
  destruct (negb (is_undefined t) && is_empty (cleanString t)); [done|].
  destruct (negb (is_undefined c) && is_empty (cleanString c)); [done|].
  exists i, n.
  destruct (changes t (title n)) eqn:Et, (changes c (content n)) eqn:Ec;
    simpl in H; [| | |done].
  all: injection H as <- <- <-; unfold keys; simpl.
  all: repeat split; done.
Qed.

Lemma update_reports_changed_fields_witness :
  ∃ n' s',
    handle Example.retitle Example.two_notes = (Updated n' ["title"], s') ∧
    title n' = "Updated Meeting Notes" ∧
    content n' = "Discussed hiring plan and deadlines" ∧
    created_at n' = Example.t0 ∧ updated_at n' = Example.t0 + 500 ∧
    notes s' = [n'; Example.note2].
Proof.
  eexists _, _. split; [by vm_compute|].
  destruct (update_reports_changed_fields Example.two_notes
              (Example.t0 + 500) (Num 1) (JString " Updated Meeting Notes ")
              (JString "Discussed hiring plan and deadlines")
              _ _ _ eq_refl)
    as (i & n & Hn & Hid & _ & _ & _ & Ht & Hc & _ & Hca & Hu & Hs & _).
  assert (i = 0%nat) as ->.
  { destruct i as [|[|i]]; [done| |]; vm_compute in Hn.
    - injection Hn as <-. done.
    - done. }
  injection Hn as <-.
  split; [exact Ht|]. split; [exact Hc|]. split; [exact Hca|].
  split; [exact Hu|exact Hs].
Defined.

(** ** Listing and searching *)

Section Search.

Implicit Types (P : Note → Prop) (l sub : list Note).

Lemma selection_filter P (f : Note → bool) l :
  (∀ x, f x = true ↔ P x) → selection P l (List.filter f l).
Proof.
  intros Hf. induction l as [|x l IH]; simpl; [constructor|].
  destruct (f x) eqn:E.
  - constructor; [by apply Hf|done].
  - constructor; [|done]. rewrite <- Hf. congruence.
Qed.


(** The filter of the search handler decides the search criterion, whatever
    the lower-casing function is. *)
Lemma search_filter_with_match (toLowerCase : string → string) cleanQuery n :
  search_filter_with toLowerCase cleanQuery n = true ↔
  lowered_match toLowerCase cleanQuery n.
Proof.
  unfold search_filter_with, lowered_match.
  by rewrite orb_true_iff, !includes_spec.
Qed.

(** The handler that requests are run with is the ASCII instance. *)
Lemma get_search_instance query (s : State) :
  get_search query s = get_search_with Js.toLowerCase query s.
Proof. reflexivity. Qed.

(** The search handler for a string that is non-empty after trimming. *)
Lemma get_search_with_found (toLowerCase : string → string) s q :
  (∀ x, toLowerCase x = "" ↔ x = "") →
  Js.trim q ≠ "" →
  get_search_with toLowerCase (JString q) s =
    (SearchResult (toLowerCase (Js.trim q))
       (length (sort byUpdatedDesc
                  (List.filter
                     (search_filter_with toLowerCase (toLowerCase (Js.trim q)))
                     (notes s))))
       (sort byUpdatedDesc
          (List.filter
             (search_filter_with toLowerCase (toLowerCase (Js.trim q)))
             (notes s))),
     s).
Proof.
  intros Hlow Hq. unfold get_search_with. simpl.
  assert (String.eqb q "" = false) as ->.
  { apply String.eqb_neq. by intros ->. }
  simpl.
  assert (is_empty (toLowerCase (Js.trim q)) = false) as ->; [|done].
  apply is_empty_false. by rewrite Hlow.
Qed.

End Search.



(** ** Unknown ids *)

(** C9: when no stored note carries the requested id, update answers
    NotFound and leaves the state as it was, whatever the body holds; a
    blank or non-string title or content is not even looked at. *)
Theorem update_unknown_id s now noteId t c :
  (∀ n, n ∈ notes s → noteId ≠ Num (id n)) →
  put_note now noteId t c s = (NotFound noteId, s).
Proof.
  intros Hno. apply put_note_not_found, findIndex_None, Forall_forall.
  intros n Hn. specialize (Hno n Hn).
  destruct noteId as [| |z]; simpl; try done.
  apply Z.eqb_neq. congruence.
Qed.

Lemma update_unknown_id_witness :
  put_note (Example.t0 + 700) (Num 99999) (JString "   ") JNull
    Example.two_notes = (NotFound (Num 99999), Example.two_notes).
Proof.
  apply (update_unknown_id Example.two_notes (Example.t0 + 700) (Num 99999)
           (JString "   ") JNull).
  intros n Hn. vm_compute in Hn.
  apply elem_of_cons in Hn as [->|Hn]; [discriminate|].
  apply elem_of_cons in Hn as [->|Hn]; [discriminate|].
  by apply elem_of_nil in Hn.
Defined.

(** ** Non-string fields *)

(** C10, as stated, fails for create: the rate limiter runs before the
    validation, so a create with a numeric title from a client that has used
    up its five requests is answered RateLimited, not ValidationFailed. *)
Lemma rate_limited_before_validation :
  reachable Example.busy ∧
  provided_non_string (JNumber 42) = true ∧
  (post_notes (Example.t0 + 5) (Example.t0 + 5) (Example.t0 + 5)
     Example.client (JNumber 42) (JString "text") Example.busy).1 = RateLimited.
Proof.
  split; [exact reachable_busy|]. split; [done|].
  apply post_notes_rate_limited_iff.
  rewrite rateLimiter_eq. simpl clientId.
  assert (rateLimitMap Example.busy !! "203.0.113.7" = Some Example.busy_record)
    as -> by by vm_compute.
  by vm_compute.
Qed.

(** C10 (amended): when a provided title or content is not a string, a
    create that passes the rate-limit check and an update of an existing note
    are rejected with ValidationFailed and store nothing.  Both handlers
    treat the non-string value exactly as the empty string. *)
Theorem non_string_fields_rejected s now tc tu ip noteId t c :
  provided_non_string t = true ∨ provided_non_string c = true →
  ((rateLimiter now ip (rateLimitMap s)).1 = true →
   ∃ details,
     (post_notes now tc tu ip t c s).1 = ValidationFailed details ∧
     notes (post_notes now tc tu ip t c s).2 = notes s ∧
     noteIdCounter (post_notes now tc tu ip t c s).2 = noteIdCounter s) ∧
  ((∃ n, n ∈ notes s ∧ noteId = Num (id n)) →
   ∃ details, put_note now noteId t c s = (ValidationFailed details, s)) ∧
  post_notes now tc tu ip t c s =
    post_notes now tc tu ip (as_blank t) (as_blank c) s ∧
  put_note now noteId t c s = put_note now noteId (as_blank t) (as_blank c) s.
Proof.
  intros Hns. split; [|split; [|split]].
  - intros Hl. rewrite post_notes_invalid; [by eexists|done|].
    rewrite isValid_eq.
    destruct Hns as [H|H]; rewrite (cleanString_non_string _ H); simpl;
      [done|apply andb_false_r].
  - intros (n & Hn & ->).
    destruct (findIndex_is_Some (λ note, strict_eq (id note) (Num (id n)))
                (notes s) n Hn) as [i Hi]; [simpl; lia|].
    destruct (put_note_index now _ t c _ _ Hi) as (n0 & Hn0 & _).
    rewrite (put_note_found _ _ _ _ _ _ _ Hi Hn0).
    destruct (negb (is_undefined t) && is_empty (cleanString t)) eqn:Et;
      [by eexists|].
    destruct (negb (is_undefined c) && is_empty (cleanString c)) eqn:Ec;
      [by eexists|].
    destruct Hns as [H|H]; [destruct t|destruct c]; done.
  - unfold post_notes, validateNoteInput. by destruct t, c.
  - unfold put_note. by destruct t, c.
Qed.

Lemma non_string_fields_rejected_witness :
  (∃ details,
     (post_notes (Example.t0 + 200) (Example.t0 + 200) (Example.t0 + 200)
        Example.client (JNumber 42) (JString "text") Example.two_notes).1 =
       ValidationFailed details ∧
     notes (post_notes (Example.t0 + 200) (Example.t0 + 200) (Example.t0 + 200)
        Example.client (JNumber 42) (JString "text") Example.two_notes).2 =
       notes Example.two_notes ∧
     noteIdCounter
       (post_notes (Example.t0 + 200) (Example.t0 + 200) (Example.t0 + 200)
          Example.client (JNumber 42) (JString "text") Example.two_notes).2 =
       noteIdCounter Example.two_notes) ∧
  (∃ details,
     put_note (Example.t0 + 200) (Num 2) (JNumber 42) (JString "text")
       Example.two_notes = (ValidationFailed details, Example.two_notes)).
Proof.
  destruct (non_string_fields_rejected Example.two_notes
              (Example.t0 + 200) (Example.t0 + 200) (Example.t0 + 200)
              Example.client (Num 2) (JNumber 42) (JString "text"))
    as (Hcreate & Hupdate & _).
  - left. reflexivity.
  - split.
    + apply Hcreate. by vm_compute.
    + apply Hupdate. exists Example.note2. split; [|reflexivity].
      vm_compute. apply elem_of_cons. right. apply elem_of_cons. by left.
Defined.

(** ** Cleaning and validating input *)

Section Cleaning.

Implicit Types (s : string) (v t c : JsValue).

Lemma trimStart_empty s :
  Js.trimStart s = "" ↔ Text.all_whitespace s = true.
Proof.
  induction s as [|d s IH]; simpl; [done|].
  destruct (Js.isWhiteSpace d); simpl; [exact IH|done].
Qed.

Lemma trimEnd_empty s :
  Js.trimEnd s = "" ↔ Text.all_whitespace s = true.
Proof.
  induction s as [|d s IH]; simpl; [done|].
  destruct (Js.trimEnd s) as [|e r] eqn:E.
  - destruct (Js.isWhiteSpace d); simpl; [|done].
    split; [intros _; by apply IH|done].
  - rewrite andb_true_iff. split; [done|].
    intros [_ H]. by apply IH in H.
Qed.

Lemma trim_empty s : Js.trim s = "" ↔ Text.all_whitespace s = true.
Proof.
  unfold Js.trim. rewrite trimEnd_empty. split.
  - intros H. apply trimStart_empty.
    destruct (Js.trimStart s) as [|d r] eqn:E; [done|].
    apply trimStart_head in E. simpl in H. by rewrite E in H.
  - intros H. apply trimStart_empty in H. by rewrite H.
Qed.

Lemma trimStart_strips s :
  ∃ pre, s = pre +:+ Js.trimStart s ∧ Text.all_whitespace pre = true.
Proof.
  induction s as [|d s (pre & IH & Hpre)]; simpl; [by exists ""|].
  destruct (Js.isWhiteSpace d) eqn:E.
  - exists (String d pre). split; [exact (f_equal (String d) IH)|].
    simpl. by rewrite E.
  - by exists "".
Qed.

Lemma trimEnd_strips s :
  ∃ post, s = Js.trimEnd s +:+ post ∧ Text.all_whitespace post = true.
Proof.
  induction s as [|d s (post & IH & Hpost)]; simpl; [by exists ""|].
  destruct (Js.trimEnd s) as [|e r] eqn:E.
  - destruct (Js.isWhiteSpace d) eqn:Hd.
    + exists (String d post). split; [exact (f_equal (String d) IH)|].
      simpl. by rewrite Hd.
    + exists post. split; [exact (f_equal (String d) IH)|done].
  - exists post. split; [exact (f_equal (String d) IH)|done].
Qed.

Lemma trim_idem s : Js.trim (Js.trim s) = Js.trim s.
Proof.
  destruct (decide (Js.trim s = "")) as [->|Hne]; [done|].
  by apply trim_well_formed_fixed, trim_well_formed.
Qed.

Lemma cleanString_blank v : cleanString v = "" ↔ blank v = true.
Proof. destruct v; simpl; try done. apply trim_empty. Qed.

Lemma is_empty_cleanString v : is_empty (cleanString v) = blank v.
Proof.
  apply eq_true_iff_eq. rewrite is_empty_true. apply cleanString_blank.
Qed.

Lemma validateNoteInput_blank t c :
  errors (validateNoteInput t c) =
    (if blank t
     then ["Title is required and cannot be empty or just spaces"] else []) ++
    (if blank c
     then ["Content is required and cannot be empty or just spaces"] else []) ∧
  isValid (validateNoteInput t c) = negb (blank t) && negb (blank c).
Proof.
  rewrite isValid_eq. unfold validateNoteInput. simpl.
  by rewrite !is_empty_cleanString.
Qed.

End Cleaning.

(** X1: [cleanString] yields the empty string exactly for a value that is
    not a string or is made of whitespace only; any other result is
    non-empty without leading or trailing whitespace.  For a string it
    removes nothing but whitespace at the two ends, and cleaning a cleaned
    value changes nothing. *)
Theorem cleanString_strips_whitespace v :
  (cleanString v = "" ↔ blank v = true) ∧
  (blank v = false → Text.well_formed (cleanString v) = true) ∧
  (∀ s, v = JString s →
        ∃ pre post, s = pre +:+ cleanString v +:+ post ∧
                    Text.all_whitespace pre = true ∧
                    Text.all_whitespace post = true) ∧
  cleanString (JString (cleanString v)) = cleanString v.
Proof.
  split; [apply cleanString_blank|]. split; [|split].
  - intros Hb. apply cleanString_well_formed.
    by rewrite is_empty_cleanString.
  - intros s ->. simpl. unfold Js.trim.
    destruct (trimStart_strips s) as (pre & Hs & Hpre).
    destruct (trimEnd_strips (Js.trimStart s)) as (post & Hr & Hpost).
    exists pre, post. by rewrite <- Hr, <- Hs.
  - destruct v; simpl; try done. apply trim_idem.
Qed.

(** X2: [validateNoteInput] reports one message per blank field, the title
    message first, and nothing else; the input is valid exactly when no
    message is reported, and then both cleaned texts are non-empty and free
    of surrounding whitespace. *)
Theorem validateNoteInput_errors t c :
  errors (validateNoteInput t c) =
    (if blank t
     then ["Title is required and cannot be empty or just spaces"] else []) ++
    (if blank c
     then ["Content is required and cannot be empty or just spaces"] else []) ∧
  isValid (validateNoteInput t c) = negb (blank t) && negb (blank c) ∧
  (isValid (validateNoteInput t c) = true ↔ errors (validateNoteInput t c) = []) ∧
  (isValid (validateNoteInput t c) = true →
   cleanTitle (validateNoteInput t c) = cleanString t ∧
   cleanContent (validateNoteInput t c) = cleanString c ∧
   Text.well_formed (cleanString t) = true ∧
   Text.well_formed (cleanString c) = true).
Proof.
  rewrite isValid_eq. unfold validateNoteInput. simpl.
  rewrite !is_empty_cleanString.
  split; [done|]. split; [done|]. split.
  - by destruct (blank t), (blank c).
  - intros H. apply andb_prop in H as [Ht Hc].
    apply negb_true_iff in Ht, Hc.
    repeat split; apply cleanString_well_formed;
      by rewrite is_empty_cleanString.
Qed.

(** ** Outcomes of a create *)

Lemma rateLimiter_passes now ip (m : gmap string (list Z)) :
  (rateLimiter now ip m).1 = true ↔
  (length (filter (λ t, (now - t < RATE_LIMIT_WINDOW)%Z)
             (default [] (m !! clientId ip))) < MAX_NOTES_PER_MINUTE)%nat.
Proof.
  rewrite rateLimiter_eq. case_decide; simpl; split; (done || lia).
Qed.

Lemma post_notes_limiter now tc tu ip t c s :
  rate_limited (post_notes now tc tu ip t c s).1 =
    negb (rateLimiter now ip (rateLimitMap s)).1 ∧
  rateLimitMap (post_notes now tc tu ip t c s).2 =
    (rateLimiter now ip (rateLimitMap s)).2.
Proof.
  assert ((rateLimiter now ip (rateLimitMap s)).2 =
          if (rateLimiter now ip (rateLimitMap s)).1
          then recorded now ip (rateLimitMap s) else rateLimitMap s) as ->.
  { rewrite rateLimiter_eq. by case_decide. }
  destruct (rateLimiter now ip (rateLimitMap s)).1 eqn:Hl.
  - destruct (isValid (validateNoteInput t c)) eqn:Hv.
    + by rewrite post_notes_created.
    + by rewrite post_notes_invalid.
  - by rewrite post_notes_rate_limited.
Qed.

(** X3: a create has three outcomes.  It is answered RateLimited exactly
    when the limiter rejects, and then the whole state is kept.  It is
    answered ValidationFailed exactly when the limiter lets it through and a
    field is blank; the details then name the blank fields, title first, and
    notes and counter are kept.  It is answered Created exactly when the
    limiter lets it through and no field is blank; then one note is appended
    and the counter grows by one. *)
Theorem create_outcomes now tc tu ip t c s :
  ((post_notes now tc tu ip t c s).1 = RateLimited ↔
   (rateLimiter now ip (rateLimitMap s)).1 = false) ∧
  ((post_notes now tc tu ip t c s).1 = RateLimited →
   (post_notes now tc tu ip t c s).2 = s) ∧
  (∀ details,
     (post_notes now tc tu ip t c s).1 = ValidationFailed details ↔
     (rateLimiter now ip (rateLimitMap s)).1 = true ∧
     blank t || blank c = true ∧
     details =
       (if blank t
        then ["Title is required and cannot be empty or just spaces"] else []) ++
       (if blank c
        then ["Content is required and cannot be empty or just spaces"] else [])) ∧
  (∀ details,
     (post_notes now tc tu ip t c s).1 = ValidationFailed details →
     notes (post_notes now tc tu ip t c s).2 = notes s ∧
     noteIdCounter (post_notes now tc tu ip t c s).2 = noteIdCounter s) ∧
  (∀ n,
     (post_notes now tc tu ip t c s).1 = Created n ↔
     (rateLimiter now ip (rateLimitMap s)).1 = true ∧
     blank t = false ∧ blank c = false ∧
     n = {| id := noteIdCounter s; title := cleanString t;
            content := cleanString c; created_at := tc; updated_at := tu |}) ∧
  (∀ n,
     (post_notes now tc tu ip t c s).1 = Created n →
     notes (post_notes now tc tu ip t c s).2 = notes s ++ [n] ∧
     noteIdCounter (post_notes now tc tu ip t c s).2 = noteIdCounter s + 1).
Proof.
  pose proof (validateNoteInput_blank t c) as [Herr Hval].
  destruct (rateLimiter now ip (rateLimitMap s)).1 eqn:Hl.
  - destruct (isValid (validateNoteInput t c)) eqn:Hv.
    + rewrite post_notes_created by done. simpl.
      symmetry in Hval. apply andb_prop in Hval as [Ht Hc].
      apply negb_true_iff in Ht, Hc. rewrite Ht, Hc. simpl.
      split; [done|]. split; [done|]. split.
      { intros details. split; [done|]. by intros (_ & ? & _). }
      split; [done|]. split.
      { intros n. split; [by intros [= <-]|by intros (_ & _ & _ & ->)]. }
      intros n [= <-]. done.
    + rewrite post_notes_invalid by done. rewrite Herr.
      cbn [fst snd notes noteIdCounter].
      assert (blank t || blank c = true) as Hb.
      { symmetry in Hval. apply andb_false_iff in Hval as [H|H];
          apply negb_false_iff in H; rewrite H; [done|apply orb_true_r]. }
      rewrite Hb.
      split; [done|]. split; [done|]. split.
      { intros details. split; [by intros [= <-]|by intros (_ & _ & ->)]. }
      split; [done|]. split; [|done].
      intros n. split; [done|]. intros (_ & Ht & Hc & _).
      by rewrite Ht, Hc in Hb.
  - rewrite post_notes_rate_limited by done. simpl.
    split; [done|]. split; [done|]. split.
    { intros details. split; [done|]. by intros [? _]. }
    split; [done|]. split; [|done].
    intros n. split; [done|]. by intros [? _].
Qed.

(** ** The limiter across requests *)

Section LimiterRuns.

Implicit Types (s : State) (e : Event) (ip : option string).

Lemma run_cons e es s :
  run (e :: es) s =
    ((handle e s).1 :: (run es (handle e s).2).1, (run es (handle e s).2).2).
Proof.
  simpl. destruct (handle e s) as [r s']. simpl. by destruct (run es s').
Qed.

(** Only a create writes the limiter, and only by recording an accepted
    check. *)
Lemma handle_limiter e s :
  rateLimitMap (handle e s).2 = rateLimitMap s ∨
  ∃ now ip,
    event_client e = Some (clientId ip) ∧
    (rateLimiter now ip (rateLimitMap s)).1 = true ∧
    rateLimitMap (handle e s).2 = recorded now ip (rateLimitMap s).
Proof.
  destruct e as [now tc tu ip t c| |now noteId t c|q]; simpl.
  - destruct (post_notes_limiter now tc tu ip t c s) as [_ ->].
    rewrite rateLimiter_eq. case_decide as Hlen; simpl; [by left|].
    right. exists now, ip. split; [done|]. split; [|done].
    rewrite rateLimiter_eq. by case_decide.
  - by left.
  - left. unfold put_note. by repeat case_match.
  - left. unfold get_search. by repeat case_match.
Qed.

End LimiterRuns.

(** X4: in every reachable state each client the limiter knows has between
    one and [MAX_NOTES_PER_MINUTE] timestamps on record. *)
Theorem limiter_records_bounded s client record :
  reachable s →
  rateLimitMap s !! client = Some record →
  (1 ≤ length record ≤ MAX_NOTES_PER_MINUTE)%nat.
Proof.
  intros Hs. revert client record.
  induction Hs as [|e s _ IH]; intros client record; [done|].
  destruct (handle_limiter e s) as [->|(now & ip & _ & Hok & ->)]; [apply IH|].
  unfold recorded.
  destruct (decide (clientId ip = client)) as [<-|Hne].
  - rewrite lookup_insert_eq. intros [= <-].
    apply rateLimiter_passes in Hok. rewrite length_app. simpl. lia.
  - rewrite lookup_insert_ne by done. apply IH.
Qed.

Lemma limiter_records_bounded_witness :
  (1 ≤ length Example.busy_record ≤ MAX_NOTES_PER_MINUTE)%nat.
Proof.
  apply (limiter_records_bounded Example.busy "203.0.113.7").
  - exact reachable_busy.
  - by vm_compute.
Defined.

(** X5: when the limiter lets a request through at [now], the record it
    stores for the client is exactly the old record with the timestamps that
    are one window old or older removed (the others kept, in their order and
    as often as they occur), followed by [now]; the stored record holds only
    timestamps younger than the window and at most [MAX_NOTES_PER_MINUTE] of
    them, and the records of the other clients are as before. *)
Theorem accepted_check_stores_fresh_record now ip m m' :
  rateLimiter now ip m = (true, m') →
  ∃ kept,
    kept = filter (λ t, ¬ RATE_LIMIT_WINDOW ≤ now - t)
             (default [] (m !! clientId ip)) ∧
    m' !! clientId ip = Some (kept ++ [now]) ∧
    (∀ client, client ≠ clientId ip → m' !! client = m !! client) ∧
    sublist kept (default [] (m !! clientId ip)) ∧
    (∀ t, t ∈ kept ↔
          t ∈ default [] (m !! clientId ip) ∧ now - t < RATE_LIMIT_WINDOW) ∧
    Forall (λ t, now - t < RATE_LIMIT_WINDOW) (kept ++ [now]) ∧
    (length (kept ++ [now]) ≤ MAX_NOTES_PER_MINUTE)%nat.
Proof.
  intros H.
  assert ((rateLimiter now ip m).1 = true) as Hok by by rewrite H.
  apply rateLimiter_passes in Hok.
  apply rateLimiter_accepts in H as ->.
  exists (filter (λ t, now - t < RATE_LIMIT_WINDOW)
            (default [] (m !! clientId ip))).
  unfold recorded. rewrite lookup_insert_eq.
  split; [apply list_filter_iff; intros t; lia|].
  split; [done|]. split.
  { intros client Hne. by apply lookup_insert_ne. }
  split; [apply sublist_filter|]. split.
  - intros t. rewrite list_elem_of_filter. tauto.
  - split.
    + apply Forall_app. split.
      * apply Forall_forall. intros t Ht.
        by apply list_elem_of_filter in Ht as [? _].
      * constructor; [|done]. unfold RATE_LIMIT_WINDOW. lia.
    + rewrite length_app. simpl. lia.
Qed.

Lemma accepted_check_stores_fresh_record_witness :
  ∃ kept,
    kept = filter (λ t, ¬ RATE_LIMIT_WINDOW ≤ Example.t0 + RATE_LIMIT_WINDOW - t)
             (default [] (rateLimitMap Example.busy !! clientId Example.client)) ∧
    <["203.0.113.7" :=
        [Example.t0 + 1; Example.t0 + 2; Example.t0 + 3; Example.t0 + 4;
         Example.t0 + RATE_LIMIT_WINDOW]]> (rateLimitMap Example.busy)
      !! clientId Example.client =
      Some (kept ++ [Example.t0 + RATE_LIMIT_WINDOW]).
Proof.
  destruct (accepted_check_stores_fresh_record
              (Example.t0 + RATE_LIMIT_WINDOW) Example.client
              (rateLimitMap Example.busy)
              (<["203.0.113.7" :=
                   [Example.t0 + 1; Example.t0 + 2; Example.t0 + 3;
                    Example.t0 + 4; Example.t0 + RATE_LIMIT_WINDOW]]>
                 (rateLimitMap Example.busy)))
    as (kept & H1 & H2 & _).
  - rewrite rateLimiter_eq. unfold recorded. simpl clientId.
    assert (rateLimitMap Example.busy !! "203.0.113.7" =
            Some Example.busy_record) as -> by by vm_compute.
    by vm_compute.
  - exists kept. split; [exact H1|exact H2].
Defined.

(** X6: the record of a client changes only when a create of that very
    client is served: listing, updating, searching and the creates of other
    clients leave it as it is, however many of them are served. *)
Theorem record_written_by_own_creates_only es s client :
  Forall (λ e, event_client e ≠ Some client) es →
  rateLimitMap (run es s).2 !! client = rateLimitMap s !! client.
Proof.
  intros Hes. revert s. induction Hes as [|e es He _ IH]; intros s; [done|].
  rewrite run_cons. simpl. rewrite IH.
  destruct (handle_limiter e s) as [->|(now & ip & Hc & _ & ->)]; [done|].
  unfold recorded. apply lookup_insert_ne. congruence.
Qed.

Lemma record_written_by_own_creates_only_witness :
  rateLimitMap
    (run [PostNotes (Example.t0 + 10) (Example.t0 + 10) (Example.t0 + 10)
            (Some "198.51.100.9") (JString "Other") (JString "client");
          GetNotes; Example.retitle; GetSearch (JString "meeting")]
       Example.busy).2 !! "203.0.113.7" =
  rateLimitMap Example.busy !! "203.0.113.7".
Proof.
  apply (record_written_by_own_creates_only
           [PostNotes (Example.t0 + 10) (Example.t0 + 10) (Example.t0 + 10)
              (Some "198.51.100.9") (JString "Other") (JString "client");
            GetNotes; Example.retitle; GetSearch (JString "meeting")]
           Example.busy "203.0.113.7").
  repeat constructor; simpl; discriminate.
Defined.

Section Quota.

Implicit Types (s : State) (ip : option string) (r : CreateRequest).

Lemma rateLimiter_snd now ip (m : gmap string (list Z)) :
  (rateLimiter now ip m).2 =
    if (rateLimiter now ip m).1 then recorded now ip m else m.
Proof. rewrite rateLimiter_eq. by case_decide. Qed.

Lemma run_creates_cons ip r reqs s :
  (run (creates ip (r :: reqs)) s).1 =
    (post_notes (at_now r) (at_created r) (at_updated r) ip
       (with_title r) (with_content r) s).1
    :: (run (creates ip reqs)
          (post_notes (at_now r) (at_created r) (at_updated r) ip
             (with_title r) (with_content r) s).2).1.
Proof. unfold creates. by rewrite fmap_cons, run_cons. Qed.

(** From a record whose timestamps stay young for all the requests to come,
    the free slots are used up first and every later create is rejected. *)
Lemma quota_from_fresh_record ip reqs : ∀ s l,
  default [] (rateLimitMap s !! clientId ip) = l →
  Forall (λ t, Forall (λ r, at_now r - t < RATE_LIMIT_WINDOW) reqs) l →
  within_one_window (at_now <$> reqs) →
  (length l ≤ 5)%nat →
  rate_limited <$> (run (creates ip reqs) s).1 =
    replicate (min (5 - length l) (length reqs)) false ++
    replicate (length reqs - (5 - length l)) true.
Proof.
  induction reqs as [|r reqs IH]; intros s l Hl Hvalid Hwin Hlen.
  - simpl. by rewrite Nat.min_0_r.
  - rewrite run_creates_cons, fmap_cons.
    destruct (post_notes_limiter (at_now r) (at_created r) (at_updated r) ip
                (with_title r) (with_content r) s) as [-> Hmap].
    assert (filter (λ t, at_now r - t < RATE_LIMIT_WINDOW) l = l) as Hkeep.
    { apply filter_window_all. eapply Forall_impl; [exact Hvalid|].
      simpl. intros t Ht. by apply Forall_cons in Ht as [? _]. }
    destruct Hwin as [Hhead Hwin]. apply Forall_fmap in Hhead.
    destruct (decide (length l < 5)%nat) as [Hfree|Hfull].
    + assert ((rateLimiter (at_now r) ip (rateLimitMap s)).1 = true) as Hok.
      { apply rateLimiter_passes. rewrite Hl, Hkeep.
        unfold MAX_NOTES_PER_MINUTE. lia. }
      rewrite Hok. rewrite rateLimiter_snd, Hok in Hmap. simpl negb.
      rewrite (IH _ (l ++ [at_now r])).
      * rewrite length_app. simpl length.
        replace (min (5 - length l) (S (length reqs)))
          with (S (min (5 - (length l + 1)) (length reqs))) by lia.
        replace (S (length reqs) - (5 - length l))%nat
          with (length reqs - (5 - (length l + 1)))%nat by lia.
        done.
      * by rewrite Hmap, recorded_lookup, Hl, Hkeep.
      * apply Forall_app. split.
        -- eapply Forall_impl; [exact Hvalid|].
           simpl. intros t Ht. by apply Forall_cons in Ht as [_ ?].
        -- constructor; [|done]. exact Hhead.
      * done.
      * rewrite length_app. simpl. lia.
    + assert ((rateLimiter (at_now r) ip (rateLimitMap s)).1 = false) as Hno.
      { apply not_true_is_false. rewrite rateLimiter_passes, Hl, Hkeep.
        unfold MAX_NOTES_PER_MINUTE. lia. }
      rewrite Hno. rewrite post_notes_rate_limited by done.
      simpl negb. cbn [fst snd].
      rewrite (IH s l); [|done| |done|done].
      * replace (5 - length l)%nat with 0%nat by lia. simpl.
        by rewrite Nat.sub_0_r.
      * eapply Forall_impl; [exact Hvalid|].
        simpl. intros t Ht. by apply Forall_cons in Ht as [_ ?].
Qed.

End Quota.

(** X7: every create the limiter lets through uses up a slot, whether it
    then passes validation or not.  When a client whose earlier timestamps
    have all expired sends any number of creates within one window, with
    whatever bodies, the first [MAX_NOTES_PER_MINUTE] are not rate-limited
    and all the later ones are answered RateLimited. *)
Theorem quota_counts_every_create ip reqs s :
  Forall (λ t0, Forall (λ r, RATE_LIMIT_WINDOW ≤ at_now r - t0) reqs)
    (default [] (rateLimitMap s !! clientId ip)) →
  within_one_window (at_now <$> reqs) →
  rate_limited <$> (run (creates ip reqs) s).1 =
    replicate (min MAX_NOTES_PER_MINUTE (length reqs)) false ++
    replicate (length reqs - MAX_NOTES_PER_MINUTE) true.
Proof.
  intros Hexpired Hwin. destruct reqs as [|r reqs]; [done|].
  rewrite run_creates_cons, fmap_cons.
  destruct (post_notes_limiter (at_now r) (at_created r) (at_updated r) ip
              (with_title r) (with_content r) s) as [-> Hmap].
  assert (filter (λ t, at_now r - t < RATE_LIMIT_WINDOW)
            (default [] (rateLimitMap s !! clientId ip)) = []) as Hdrop.
  { apply filter_window_none. eapply Forall_impl; [exact Hexpired|].
    simpl. intros t Ht. by apply Forall_cons in Ht as [? _]. }
  assert ((rateLimiter (at_now r) ip (rateLimitMap s)).1 = true) as Hok.
  { apply rateLimiter_passes. rewrite Hdrop. unfold MAX_NOTES_PER_MINUTE.
    simpl. lia. }
  rewrite Hok. rewrite rateLimiter_snd, Hok in Hmap. simpl negb.
  destruct Hwin as [Hhead Hwin]. apply Forall_fmap in Hhead.
  rewrite (quota_from_fresh_record ip reqs _ [at_now r]).
  - unfold MAX_NOTES_PER_MINUTE. simpl length.
    replace (min 5 (S (length reqs)))
      with (S (min (5 - 1) (length reqs))) by lia.
    replace (S (length reqs) - 5)%nat with (length reqs - (5 - 1))%nat by lia.
    done.
  - by rewrite Hmap, recorded_lookup, Hdrop.
  - constructor; [|done]. exact Hhead.
  - done.
  - simpl. lia.
Qed.

Lemma quota_counts_every_create_witness :
  rate_limited <$> (run (creates Example.client Example2.burst) initial).1 =
    [false; false; false; false; false; true].
Proof.
  apply (quota_counts_every_create Example.client Example2.burst initial).
  - unfold initial. simpl rateLimitMap. rewrite lookup_empty. constructor.
  - simpl. unfold RATE_LIMIT_WINDOW, Example.t0.
    repeat split; repeat constructor; lia.
Defined.

(** ** The order of listings and search results *)

Section Ordering.

Implicit Types (x y : Note) (l : list Note) (f : Note → bool).

Lemma sort_insert_front x l :
  Forall (λ y, updated_at y ≤ updated_at x) l →
  sort_insert byUpdatedDesc x l = x :: l.
Proof.
  destruct 1 as [|y l Hy _]; simpl; [done|].
  unfold byUpdatedDesc. by destruct (Z.leb_spec (updated_at y - updated_at x) 0); [|lia].
Qed.

Lemma sort_insert_back x l :
  Forall (λ y, updated_at x < updated_at y) l →
  sort_insert byUpdatedDesc x l = l ++ [x].
Proof.
  induction 1 as [|y l Hy _ IH]; simpl; [done|].
  unfold byUpdatedDesc at 1.
  destruct (Z.leb_spec (updated_at y - updated_at x) 0); [lia|].
  by rewrite IH.
Qed.

Lemma sort_insert_ties k x l :
  filter (λ n, updated_at n = k) (sort_insert byUpdatedDesc x l) =
  filter (λ n, updated_at n = k) (x :: l).
Proof.
  induction l as [|y l IH]; simpl; [done|].
  unfold byUpdatedDesc at 1.
  destruct (Z.leb_spec (updated_at y - updated_at x) 0) as [Hle|Hgt]; [done|].
  rewrite (filter_cons _ y), IH, !filter_cons.
  repeat case_decide; (done || lia).
Qed.

Lemma sort_ties k l :
  filter (λ n, updated_at n = k) (sort byUpdatedDesc l) =
  filter (λ n, updated_at n = k) l.
Proof.
  induction l as [|x l IH]; simpl; [done|].
  by rewrite sort_insert_ties, !filter_cons, IH.
Qed.

Lemma sort_oldest_first l :
  StronglySorted (λ a b, updated_at a < updated_at b) l →
  sort byUpdatedDesc l = reverse l.
Proof.
  induction 1 as [|x l _ IH Hx]; simpl; [done|].
  rewrite IH, reverse_cons. apply sort_insert_back.
  by apply Forall_reverse.
Qed.

Lemma Forall_List_filter (P : Note → Prop) f l :
  Forall P l → Forall P (List.filter f l).
Proof.
  induction 1 as [|y l Hy _ IH]; simpl; [done|].
  destruct (f y); [by constructor|done].
Qed.

Lemma filter_sort_insert f x l :
  newest_first l →
  List.filter f (sort_insert byUpdatedDesc x l) =
    if f x then sort_insert byUpdatedDesc x (List.filter f l)
    else List.filter f l.
Proof.
  unfold newest_first.
  induction 1 as [|y l _ IH Hy]; simpl; [by destruct (f x)|].
  unfold byUpdatedDesc at 1.
  destruct (Z.leb_spec (updated_at y - updated_at x) 0) as [Hle|Hgt].
  - simpl. destruct (f x); [|done].
    symmetry. apply sort_insert_front.
    change (Forall (λ z, updated_at z ≤ updated_at x) (List.filter f (y :: l))).
    apply Forall_List_filter.
    constructor; [lia|]. eapply Forall_impl; [exact Hy|]. simpl. lia.
  - simpl. rewrite IH. destruct (f y), (f x); simpl; try done.
    assert ((byUpdatedDesc x y <=? 0) = false) as ->; [|done].
    apply Z.leb_gt. unfold byUpdatedDesc. lia.
Qed.

(** Filtering the sorted array gives the sorted filtered array. *)
Lemma filter_sort f l :
  List.filter f (sort byUpdatedDesc l) = sort byUpdatedDesc (List.filter f l).
Proof.
  induction l as [|x l IH]; simpl; [done|].
  rewrite filter_sort_insert by apply sort_newest_first.
  rewrite IH. by destruct (f x).
Qed.

(** An element newer than all the others is sorted to the front. *)
Lemma sort_newest l1 x l2 :
  Forall (λ y, updated_at y < updated_at x) l1 →
  Forall (λ y, updated_at y < updated_at x) l2 →
  sort byUpdatedDesc (l1 ++ x :: l2) = x :: sort byUpdatedDesc (l1 ++ l2).
Proof.
  intros H1 H2. induction H1 as [|y l1 Hy _ IH]; simpl.
  - apply sort_insert_front. rewrite sort_perm.
    eapply Forall_impl; [exact H2|]. simpl. lia.
  - rewrite IH. simpl. unfold byUpdatedDesc at 1.
    by destruct (Z.leb_spec (updated_at x - updated_at y) 0); [lia|].
Qed.

End Ordering.

(** X8: sorting by [updated_at] is stable: among the notes that carry the
    same [updated_at], a listing keeps the order in which they are stored. *)
Theorem listing_keeps_stored_order_of_ties s k :
  ∃ listed,
    get_notes s = (NoteList (length listed) listed, s) ∧
    filter (λ n, updated_at n = k) listed =
    filter (λ n, updated_at n = k) (notes s).
Proof.
  exists (sort byUpdatedDesc (notes s)). split; [done|]. apply sort_ties.
Qed.

(** X9: a store whose notes carry strictly increasing [updated_at] in
    stored order (creates at distinct times and no update since) is listed
    in exactly the reverse of the stored order. *)
Theorem listing_reverses_fresh_store s :
  StronglySorted (λ a b, updated_at a < updated_at b) (notes s) →
  get_notes s = (NoteList (length (notes s)) (reverse (notes s)), s).
Proof.
  intros H. unfold get_notes.
  by rewrite (sort_oldest_first _ H), length_reverse.
Qed.

Lemma listing_reverses_fresh_store_witness :
  get_notes Example.two_notes =
    (NoteList 2 [Example.note2; Example.note1], Example.two_notes).
Proof.
  apply (listing_reverses_fresh_store Example.two_notes).
  change (notes Example.two_notes) with [Example.note1; Example.note2].
  repeat constructor.
Defined.

(** X10: a search is the listing restricted to the matching notes,
    whatever function [String.prototype.toLowerCase] is, as long as it gives
    the empty string for the empty string only: for a query that is
    non-empty after trimming, the notes of the search answer are the notes
    of the listing that pass the filter of the handler (those whose
    lower-cased title or content has the cleaned query as a substring), in
    the order of the listing. *)
Theorem search_is_filtered_listing (toLowerCase : string → string) s q :
  (∀ x, toLowerCase x = "" ↔ x = "") →
  Js.trim q ≠ "" →
  ∃ found listed,
    get_search_with toLowerCase (JString q) s =
      (SearchResult (toLowerCase (Js.trim q)) (length found) found, s) ∧
    get_notes s = (NoteList (length listed) listed, s) ∧
    found =
      List.filter (search_filter_with toLowerCase (toLowerCase (Js.trim q)))
        listed ∧
    selection (lowered_match toLowerCase (toLowerCase (Js.trim q)))
      listed found ∧
    sublist found listed.
Proof.
  intros Hlow Hq.
  set (cleanQuery := toLowerCase (Js.trim q)).
  exists (sort byUpdatedDesc
            (List.filter (search_filter_with toLowerCase cleanQuery) (notes s))),
         (sort byUpdatedDesc (notes s)).
  split; [by apply get_search_with_found|].
  split; [done|]. rewrite <- filter_sort. split; [done|]. split.
  - apply selection_filter. intros n. apply search_filter_with_match.
  - generalize (sort byUpdatedDesc (notes s)). intros l.
    induction l as [|x l IH]; simpl; [done|].
    destruct (search_filter_with toLowerCase cleanQuery x); by constructor.
Qed.

Lemma search_is_filtered_listing_witness :
  ∃ found listed,
    get_search (JString "  MEETING ") Example.two_notes =
      (SearchResult "meeting" (length found) found, Example.two_notes) ∧
    get_notes Example.two_notes =
      (NoteList (length listed) listed, Example.two_notes) ∧
    found = List.filter (search_filter "meeting") listed.
Proof.
  destruct (search_is_filtered_listing Js.toLowerCase Example.two_notes
              "  MEETING ") as (found & listed & H1 & H2 & H3 & _).
  - exact toLowerCase_empty.
  - vm_compute. discriminate.
  - exists found, listed. split; [exact H1|]. split; [exact H2|exact H3].
Defined.

(** ** Search queries *)

Section Queries.

Implicit Types (s : State) (q : string) (c : ascii).

Lemma isWhiteSpace_lowerChar c :
  Js.isWhiteSpace (Js.lowerChar c) = Js.isWhiteSpace c.
Proof. by destruct c as [[] [] [] [] [] [] [] []]; vm_compute. Qed.

Lemma trimStart_toLowerCase q :
  Js.trimStart (Js.toLowerCase q) = Js.toLowerCase (Js.trimStart q).
Proof.
  induction q as [|c q IH]; simpl; [done|].
  rewrite isWhiteSpace_lowerChar. by destruct (Js.isWhiteSpace c).
Qed.

Lemma trimEnd_toLowerCase q :
  Js.trimEnd (Js.toLowerCase q) = Js.toLowerCase (Js.trimEnd q).
Proof.
  induction q as [|c q IH]; simpl; [done|].
  rewrite IH, isWhiteSpace_lowerChar.
  destruct (Js.trimEnd q); simpl; [|done].
  by destruct (Js.isWhiteSpace c).
Qed.

Lemma trim_toLowerCase q :
  Js.trim (Js.toLowerCase q) = Js.toLowerCase (Js.trim q).
Proof. unfold Js.trim. by rewrite trimStart_toLowerCase, trimEnd_toLowerCase. Qed.

Lemma append_empty_r q : q +:+ "" = q.
Proof. induction q as [|c q IH]; [done|]. exact (f_equal (String c) IH). Qed.

(** The search handler for a string that is non-empty after trimming. *)
Lemma get_search_found s q :
  Js.trim q ≠ "" →
  get_search (JString q) s =
    (SearchResult (Js.toLowerCase (Js.trim q))
       (length (sort byUpdatedDesc
                  (List.filter (search_filter (Js.toLowerCase (Js.trim q)))
                     (notes s))))
       (sort byUpdatedDesc
          (List.filter (search_filter (Js.toLowerCase (Js.trim q))) (notes s))),
     s).
Proof.
  intros Hq. unfold get_search. simpl.
  assert (String.eqb q "" = false) as ->.
  { apply String.eqb_neq. by intros ->. }
  simpl.
  assert (is_empty (Js.toLowerCase (Js.trim q)) = false) as ->; [|done].
  apply is_empty_false. by rewrite toLowerCase_empty.
Qed.

End Queries.

(** X11: the search handler never changes the state.  It answers
    MissingQuery exactly for a falsy query (absent or the empty string) and
    InvalidQuery exactly for a truthy query that is not a string (a repeated
    or nested parameter) or is made of whitespace only; every other query
    gets a result. *)
Theorem search_query_classes q s :
  (get_search q s).2 = s ∧
  ((get_search q s).1 = MissingQuery ↔ truthy q = false) ∧
  ((get_search q s).1 = InvalidQuery ↔ truthy q = true ∧ blank q = true) ∧
  (truthy q = true → blank q = false →
   ∃ found, (get_search q s).1 =
              SearchResult (Js.toLowerCase (cleanString q)) (length found) found) ∧
  (∀ str, q = JString str →
     ((get_search q s).1 = MissingQuery ↔ str = "") ∧
     ((get_search q s).1 = InvalidQuery ↔
      str ≠ "" ∧ Text.all_whitespace str = true)) ∧
  (q = JArray ∨ q = JObject → (get_search q s).1 = InvalidQuery).
Proof.
  assert (is_empty (Js.toLowerCase (cleanString q)) = blank q) as Hb.
  { rewrite <- is_empty_cleanString. apply eq_true_iff_eq.
    by rewrite !is_empty_true, toLowerCase_empty. }
  assert ((get_search q s).2 = s ∧
          ((get_search q s).1 = MissingQuery ↔ truthy q = false) ∧
          ((get_search q s).1 = InvalidQuery ↔ truthy q = true ∧ blank q = true) ∧
          (truthy q = true → blank q = false →
           ∃ found, (get_search q s).1 =
              SearchResult (Js.toLowerCase (cleanString q)) (length found) found))
    as (H1 & H2 & H3 & H4).
  { unfold get_search. destruct (truthy q); simpl.
    - rewrite Hb. destruct (blank q); simpl.
      + split; [done|]. split; [done|]. split; [done|]. done.
      + split; [done|]. split; [done|]. split; [by split; [|intros [_ ?]]|].
        intros _ _. by eexists.
    - split; [done|]. split; [done|]. split; [by split; [|intros [? _]]|done]. }
  split; [done|]. split; [done|]. split; [done|]. split; [done|]. split.
  - intros str ->. rewrite H2, H3. simpl.
    rewrite negb_false_iff, negb_true_iff, String.eqb_eq, String.eqb_neq.
    done.
  - intros [-> | ->]; by apply H3.
Qed.

(** X12: the answer to a search depends on the query only through its
    trimmed, lower-cased form: two queries with the same cleaned form get the
    same answer, and searching for the query echoed in an answer returns
    that answer again. *)
Theorem search_depends_on_cleaned_query s q q' :
  Js.trim q ≠ "" →
  Js.toLowerCase (Js.trim q') = Js.toLowerCase (Js.trim q) →
  get_search (JString q') s = get_search (JString q) s ∧
  get_search (JString (Js.toLowerCase (Js.trim q))) s = get_search (JString q) s.
Proof.
  intros Hq Heq.
  assert (Js.toLowerCase (Js.trim q) ≠ "") as Hlow
    by by rewrite toLowerCase_empty.
  split.
  - rewrite !get_search_found, Heq; [done..|].
    intros H. by rewrite H in Heq.
  - rewrite (get_search_found s (Js.toLowerCase (Js.trim q))).
    + by rewrite get_search_found, trim_toLowerCase, trim_idem, toLowerCase_idem.
    + by rewrite trim_toLowerCase, trim_idem.
Qed.

Lemma search_depends_on_cleaned_query_witness :
  get_search (JString "  MEETING ") Example.two_notes =
    get_search (JString "Meeting") Example.two_notes ∧
  get_search (JString "meeting") Example.two_notes =
    get_search (JString "Meeting") Example.two_notes.
Proof.
  apply (search_depends_on_cleaned_query Example.two_notes
           "Meeting" "  MEETING ").
  - vm_compute. discriminate.
  - reflexivity.
Defined.

(** ** Requests one after another *)

Section Sequences.

Implicit Types (s : State) (e : Event) (n : Note).

Lemma handle_created e s n :
  (handle e s).1 = Created n →
  notes (handle e s).2 = notes s ++ [n] ∧
  Text.well_formed (title n) = true ∧ Text.well_formed (content n) = true.
Proof.
  destruct e as [now tc tu ip t c| |now noteId t c|q]; simpl.
  - destruct (rateLimiter now ip (rateLimitMap s)).1 eqn:Hl.
    + destruct (isValid (validateNoteInput t c)) eqn:Hv.
      * rewrite post_notes_created by done. simpl. intros [= <-]. simpl.
        rewrite isValid_eq in Hv. apply andb_prop in Hv as [Ht Hc].
        apply negb_true_iff in Ht, Hc.
        split; [done|]. split; by apply cleanString_well_formed.
      * by rewrite post_notes_invalid.
    + by rewrite post_notes_rate_limited.
  - done.
  - unfold put_note. by repeat case_match.
  - unfold get_search. by repeat case_match.
Qed.

Lemma handle_updated e s n fields :
  (handle e s).1 = Updated n fields →
  ∃ now noteId t c i old,
    e = PutNote now noteId t c ∧
    findIndex (λ note, strict_eq (id note) noteId) (notes s) = Some i ∧
    notes s !! i = Some old ∧
    negb (is_undefined t) && is_empty (cleanString t) = false ∧
    negb (is_undefined c) && is_empty (cleanString c) = false ∧
    n = spread old
          {| new_title := if changes t (title old)
                          then Some (cleanString t) else None;
             new_content := if changes c (content old)
                            then Some (cleanString c) else None |} now ∧
    notes (handle e s).2 = <[i := n]> (notes s).
Proof.
  destruct e as [now tc tu ip t c| |now noteId t c|q]; simpl.
  - unfold post_notes. by repeat case_match.
  - done.
  - destruct (findIndex (λ note, strict_eq (id note) noteId) (notes s))
      as [i|] eqn:Hi; [|by rewrite put_note_not_found].
    destruct (put_note_index now _ t c _ _ Hi) as (old & Hold & _).
    rewrite (put_note_found _ _ _ _ _ _ _ Hi Hold).
    destruct (negb (is_undefined t) && is_empty (cleanString t)) eqn:Et;
      [done|].
    destruct (negb (is_undefined c) && is_empty (cleanString c)) eqn:Ec;
      [done|].
    destruct (negb (changes t (title old) || changes c (content old)));
      [done|].
    simpl. intros [= <- _]. by exists now, noteId, t, c, i, old.
  - unfold get_search. by repeat case_match.
Qed.

Lemma findIndex_insert {A : Type} (p : A → bool) (l : list A) i x x' :
  l !! i = Some x → p x' = p x →
  findIndex p (<[i := x']> l) = findIndex p l.
Proof.
  revert i. induction l as [|y l IH]; intros i; [done|].
  destruct i as [|i]; simpl.
  - intros [= ->] ->. done.
  - intros Hi Hp. by rewrite (IH i Hi Hp).
Qed.

End Sequences.

(** X13: a note that has just been created is found by searching, whatever
    function [String.prototype.toLowerCase] is, as long as it gives the
    empty string for the empty string only: every query, non-empty after
    trimming, whose trimmed, lower-cased form is a substring of the
    lower-cased title or content returns it, and so do its own title and
    its own content used as queries. *)
Theorem created_note_is_found (toLowerCase : string → string)
    now tc tu ip t c s n s' :
  (∀ x, toLowerCase x = "" ↔ x = "") →
  post_notes now tc tu ip t c s = (Created n, s') →
  (∀ q, Js.trim q ≠ "" →
        lowered_match toLowerCase (toLowerCase (Js.trim q)) n →
        ∃ found,
          get_search_with toLowerCase (JString q) s' =
            (SearchResult (toLowerCase (Js.trim q)) (length found) found, s') ∧
          n ∈ found) ∧
  (∃ found,
     get_search_with toLowerCase (JString (title n)) s' =
       (SearchResult (toLowerCase (title n)) (length found) found, s') ∧
     n ∈ found) ∧
  (∃ found,
     get_search_with toLowerCase (JString (content n)) s' =
       (SearchResult (toLowerCase (content n)) (length found) found, s') ∧
     n ∈ found).
Proof.
  intros Hlow H.
  destruct (handle_created (PostNotes now tc tu ip t c) s n) as (Hn & Ht & Hc).
  { simpl. by rewrite H. }
  simpl in Hn. rewrite H in Hn. simpl in Hn.
  assert (∀ q, Js.trim q ≠ "" →
            lowered_match toLowerCase (toLowerCase (Js.trim q)) n →
            ∃ found,
              get_search_with toLowerCase (JString q) s' =
                (SearchResult (toLowerCase (Js.trim q)) (length found) found, s') ∧
              n ∈ found) as Hfound.
  { intros q Hq Hin. eexists. split; [by apply get_search_with_found|].
    rewrite sort_perm. apply list_elem_of_In, filter_In. split.
    - rewrite Hn. apply in_or_app. right. by left.
    - by apply search_filter_with_match. }
  split; [exact Hfound|].
  pose proof (trim_well_formed_fixed _ Ht) as Htt.
  pose proof (trim_well_formed_fixed _ Hc) as Hcc.
  split.
  - destruct (Hfound (title n)) as (found & Hs & Hin).
    + rewrite Htt. by apply well_formed_nonempty.
    + left. rewrite Htt. exists "", "". symmetry. apply append_empty_r.
    + exists found. by rewrite Htt in Hs.
  - destruct (Hfound (content n)) as (found & Hs & Hin).
    + rewrite Hcc. by apply well_formed_nonempty.
    + right. rewrite Hcc. exists "", "". symmetry. apply append_empty_r.
    + exists found. by rewrite Hcc in Hs.
Qed.

Lemma created_note_is_found_witness :
  ∃ n s' found,
    post_notes Example.t0 Example.t0 Example.t0 Example.client
      (JString "  Meeting Notes  ") (JString " Agenda ") initial
      = (Created n, s') ∧
    get_search (JString (title n)) s' =
      (SearchResult (Js.toLowerCase (title n)) (length found) found, s') ∧
    n ∈ found.
Proof.
  destruct (created_note_is_found Js.toLowerCase
              Example.t0 Example.t0 Example.t0
              Example.client (JString "  Meeting Notes  ") (JString " Agenda ")
              initial _ _ toLowerCase_empty eq_refl)
    as (_ & (found & H1 & H2) & _).
  eexists _, _, found. split; [reflexivity|]. split; [exact H1|exact H2].
Defined.

(** X14: an update of an existing note reports the first blank field only.
    A provided blank title gives the title message whatever the content is;
    a provided blank content after an absent or non-blank title gives the
    content message, and a title change staged before it is not applied.
    The state is kept in both cases. *)
Theorem update_reports_first_blank_field s now noteId t c :
  (∃ n, n ∈ notes s ∧ noteId = Num (id n)) →
  (is_undefined t = false → blank t = true →
   put_note now noteId t c s =
     (ValidationFailed ["Title cannot be empty or just spaces"], s)) ∧
  (is_undefined t = true ∨ blank t = false →
   is_undefined c = false → blank c = true →
   put_note now noteId t c s =
     (ValidationFailed ["Content cannot be empty or just spaces"], s)).
Proof.
  intros (n & Hn & ->).
  destruct (findIndex_is_Some (λ note, strict_eq (id note) (Num (id n)))
              (notes s) n Hn) as [i Hi]; [simpl; lia|].
  destruct (put_note_index now _ t c _ _ Hi) as (n0 & Hn0 & _).
  rewrite (put_note_found _ _ _ _ _ _ _ Hi Hn0), !is_empty_cleanString.
  split.
  - by intros -> ->.
  - intros Ht -> ->. simpl.
    by destruct Ht as [-> | ->]; [|rewrite andb_false_r].
Qed.

Lemma update_reports_first_blank_field_witness :
  put_note (Example.t0 + 300) (Num 1) (JString "  ") (JString "")
    Example.two_notes =
    (ValidationFailed ["Title cannot be empty or just spaces"],
     Example.two_notes) ∧
  put_note (Example.t0 + 300) (Num 1) (JString "New title") (JString "  ")
    Example.two_notes =
    (ValidationFailed ["Content cannot be empty or just spaces"],
     Example.two_notes).
Proof.
  assert (∃ n, n ∈ notes Example.two_notes ∧ Num 1 = Num (id n)) as Hex.
  { exists Example.note1. split; [|reflexivity].
    change (notes Example.two_notes) with [Example.note1; Example.note2].
    apply elem_of_cons. by left. }
  split.
  - apply (update_reports_first_blank_field Example.two_notes
             (Example.t0 + 300) (Num 1) (JString "  ") (JString "") Hex);
      reflexivity.
  - apply (update_reports_first_blank_field Example.two_notes
             (Example.t0 + 300) (Num 1) (JString "New title") (JString "  ")
             Hex); [right|..]; reflexivity.
Defined.

(** X15: an update is idempotent: after a successful update, the same
    request sent again, at whatever time, is answered "no changes" with the
    updated note and leaves the state as the first update left it. *)
Theorem update_twice_is_no_change s now noteId t c n' fields s' now2 :
  put_note now noteId t c s = (Updated n' fields, s') →
  put_note now2 noteId t c s' = (NoChanges n', s').
Proof.
  intros H.
  destruct (handle_updated (PutNote now noteId t c) s n' fields)
    as (now0 & noteId0 & t0 & c0 & i & old & [= <- <- <- <-] & Hi & Hold &
        Ht & Hc & Hn' & Hs').
  { simpl. by rewrite H. }
  simpl in Hs'. rewrite H in Hs'. simpl in Hs'.
  assert (findIndex (λ note, strict_eq (id note) noteId) (notes s') = Some i)
    as Hi'.
  { rewrite Hs', (findIndex_insert _ _ i old n'); [done..|]. by rewrite Hn'. }
  assert (notes s' !! i = Some n') as Hn.
  { rewrite Hs'. apply list_lookup_insert_eq. by eapply lookup_lt_Some. }
  rewrite (put_note_found _ _ _ _ _ _ _ Hi' Hn), Ht, Hc.
  assert (changes t (title n') = false) as ->.
  { rewrite Hn'. unfold spread. simpl.
    destruct (changes t (title old)) eqn:E; simpl; [|done].
    unfold changes. by rewrite String.eqb_refl, andb_false_r. }
  assert (changes c (content n') = false) as ->.
  { rewrite Hn'. unfold spread. simpl.
    destruct (changes c (content old)) eqn:E; simpl; [|done].
    unfold changes. by rewrite String.eqb_refl, andb_false_r. }
  done.
Qed.

Lemma update_twice_is_no_change_witness :
  ∃ n' s',
    handle Example.retitle Example.two_notes = (Updated n' ["title"], s') ∧
    put_note (Example.t0 + 900) (Num 1) (JString " Updated Meeting Notes ")
      (JString "Discussed hiring plan and deadlines") s' = (NoChanges n', s').
Proof.
  eexists _, _. split; [by vm_compute|].
  apply (update_twice_is_no_change Example.two_notes (Example.t0 + 500)
           (Num 1) (JString " Updated Meeting Notes ")
           (JString "Discussed hiring plan and deadlines") _ ["title"]).
  by vm_compute.
Defined.

(** X16: notes are never deleted and never move.  Whatever requests are
    served, a stored note stays at its position with its [id] and its
    [created_at], the store does not shrink and the counter does not
    decrease. *)
Theorem stored_notes_persist es s i n :
  notes s !! i = Some n →
  (∃ n', notes (run es s).2 !! i = Some n' ∧
         id n' = id n ∧ created_at n' = created_at n) ∧
  (length (notes s) ≤ length (notes (run es s).2))%nat ∧
  noteIdCounter s ≤ noteIdCounter (run es s).2.
Proof.
  revert s n. induction es as [|e es IH]; intros s n Hn.
  - simpl. split; [by exists n|]. split; [done|lia].
  - rewrite run_cons. simpl.
    assert (∃ n1, notes (handle e s).2 !! i = Some n1 ∧
                  id n1 = id n ∧ created_at n1 = created_at n ∧
                  (length (notes s) ≤ length (notes (handle e s).2))%nat ∧
                  noteIdCounter s ≤ noteIdCounter (handle e s).2)
      as (n1 & Hn1 & Hid & Hca & Hlen & Hcnt).
    { destruct (handle_store e s)
        as [[-> ->]|[(m & -> & _ & _ & ->)
                    |(j & old & new & Hj & -> & Hid & Hca & _ & ->)]].
      - exists n. repeat split; (done || lia).
      - exists n. rewrite lookup_app_l by by eapply lookup_lt_Some.
        rewrite length_app. repeat split; (done || lia).
      - rewrite length_insert. destruct (decide (j = i)) as [->|Hne].
        + exists new. rewrite list_lookup_insert_eq by by eapply lookup_lt_Some.
          assert (old = n) as -> by congruence.
          repeat split; (done || lia).
        + exists n. rewrite list_lookup_insert_ne by done.
          repeat split; (done || lia). }
    destruct (IH _ _ Hn1) as ((n' & Hn' & Hid' & Hca') & Hlen' & Hcnt').
    split; [exists n'; split; [done|split; congruence]|].
    split; lia.
Qed.

Lemma stored_notes_persist_witness :
  ∃ n', notes (run [Example.retitle; Example.create 700 "Later" "note"]
                 Example.two_notes).2 !! 0%nat = Some n' ∧
        id n' = 1 ∧ created_at n' = Example.t0.
Proof.
  destruct (stored_notes_persist
              [Example.retitle; Example.create 700 "Later" "note"]
              Example.two_notes 0 Example.note1 eq_refl)
    as ((n' & H1 & H2 & H3) & _).
  exists n'. split; [exact H1|]. split; [exact H2|exact H3].
Defined.

(** X18: a note written with an [updated_at] newer than that of every
    stored note heads the next listing.  After such a create the listing is
    the new note followed by the previous listing; after such an update of
    the note at a position it is the updated note followed by the listing of
    the store without that position, that is, of all the other notes. *)
Theorem written_note_heads_listing e s n :
  (handle e s).1 = Created n ∨ (∃ fields, (handle e s).1 = Updated n fields) →
  Forall (λ m, updated_at m < updated_at n) (notes s) →
  ∃ rest,
    get_notes (handle e s).2 =
      (NoteList (S (length rest)) (n :: rest), (handle e s).2) ∧
    ((handle e s).1 = Created n →
     get_notes s = (NoteList (length rest) rest, s)) ∧
    (∀ fields, (handle e s).1 = Updated n fields →
     ∃ i old,
       notes s !! i = Some old ∧ id old = id n ∧
       notes (handle e s).2 = <[i := n]> (notes s) ∧
       get_notes (without i s) = (NoteList (length rest) rest, without i s)).
Proof.
  intros [Hc|[fields Hu]] Hnew.
  - destruct (handle_created e s n Hc) as [Hn _].
    exists (sort byUpdatedDesc (notes s)). split; [|split; [done|]].
    + unfold get_notes. rewrite Hn, (sort_newest (notes s) n []) by done.
      by rewrite app_nil_r.
    + intros fields Hu. by rewrite Hc in Hu.
  - destruct (handle_updated e s n fields Hu)
      as (now & noteId & t & c & i & old & _ & _ & Hold & _ & _ & Hn & Hs').
    exists (sort byUpdatedDesc (delete i (notes s))).
    rewrite delete_take_drop.
    split; [|split; [by rewrite Hu|]].
    + unfold get_notes. rewrite Hs'.
      rewrite insert_take_drop by by eapply lookup_lt_Some.
      rewrite sort_newest; [done|by apply Forall_take|by apply Forall_drop].
    + intros _ _. exists i, old. split; [done|]. split; [by rewrite Hn|].
      split; [done|]. unfold get_notes, without. simpl.
      by rewrite delete_take_drop.
Qed.

Lemma written_note_heads_listing_witness :
  ∃ n rest,
    (handle Example.retitle Example.two_notes).1 = Updated n ["title"] ∧
    get_notes (handle Example.retitle Example.two_notes).2 =
      (NoteList (S (length rest)) (n :: rest),
       (handle Example.retitle Example.two_notes).2) ∧
    rest = [Example.note2].
Proof.
  destruct (written_note_heads_listing Example.retitle Example.two_notes
              {| id := 1; title := "Updated Meeting Notes";
                 content := "Discussed hiring plan and deadlines";
                 created_at := Example.t0;
                 updated_at := Example.t0 + 500 |})
    as (rest & H & _ & Hup).
  - right. exists ["title"]. by vm_compute.
  - change (notes Example.two_notes) with [Example.note1; Example.note2].
    repeat constructor.
  - destruct (Hup ["title"]) as (i & old & Hi & Hid & _ & Hrest);
      [by vm_compute|].
    assert (i = 0%nat) as ->.
    { destruct i as [|[|i]]; [done| |]; vm_compute in Hi.
      - injection Hi as <-. done.
      - done. }
    eexists _, rest. split; [by vm_compute|]. split; [exact H|].
    vm_compute in Hrest. by injection Hrest as _ <-.
Defined.

Section Steps.

Implicit Types (s : State) (e : Event).

(** What one request does to the store, read off its response. *)
Lemma handle_step e s :
  (is_created (handle e s).1 = false ∧
   (∀ n fields, (handle e s).1 ≠ Updated n fields) ∧
   notes (handle e s).2 = notes s ∧
   noteIdCounter (handle e s).2 = noteIdCounter s)
  ∨ (∃ n, (handle e s).1 = Created n ∧
          notes (handle e s).2 = notes s ++ [n] ∧
          noteIdCounter (handle e s).2 = noteIdCounter s + 1)
  ∨ (∃ n fields, (handle e s).1 = Updated n fields ∧
          length (notes (handle e s).2) = length (notes s) ∧
          noteIdCounter (handle e s).2 = noteIdCounter s).
Proof.
  destruct e as [now tc tu ip t c| |now noteId t c|q]; simpl.
  - destruct (rateLimiter now ip (rateLimitMap s)).1 eqn:Hl.
    + destruct (isValid (validateNoteInput t c)) eqn:Hv.
      * rewrite post_notes_created by done. right; left. by eexists.
      * rewrite post_notes_invalid by done. by left.
    + rewrite post_notes_rate_limited by done. by left.
  - by left.
  - destruct (findIndex (λ note, strict_eq (id note) noteId) (notes s))
      as [i|] eqn:Hi; [|rewrite put_note_not_found by done; by left].
    destruct (put_note_index now _ t c _ _ Hi) as (old & Hold & _).
    rewrite (put_note_found _ _ _ _ _ _ _ Hi Hold).
    destruct (negb (is_undefined t) && is_empty (cleanString t));
      [by left|].
    destruct (negb (is_undefined c) && is_empty (cleanString c));
      [by left|].
    destruct (negb (changes t (title old) || changes c (content old)));
      [by left|].
    right; right. eexists _, _. simpl. by rewrite length_insert.
  - unfold get_search. repeat case_match; by left.
Qed.

End Steps.

(** X19: in a reachable state an update is answered NotFound exactly when
    the requested id is not one of 1, ..., number of stored notes (in
    particular when it is NaN or an infinity). *)
Theorem update_not_found_iff s now noteId t c :
  reachable s →
  (put_note now noteId t c s).1 = NotFound noteId ↔
  ∀ k, noteId = Num k → ¬ (1 ≤ k ≤ Z.of_nat (length (notes s))).
Proof.
  intros Hs. pose proof (reachable_ids s Hs) as Hids. split.
  - intros Hnf k -> Hk.
    destruct (lookup_lt_is_Some_2 (notes s) (Z.to_nat (k - 1))) as [n Hn];
      [lia|].
    pose proof (ids_sequential_lookup _ _ _ Hids Hn) as Hid.
    assert (id n = k) as <- by lia.
    rewrite (put_note_found _ _ t c _ _ _
               (ids_sequential_findIndex _ _ _ Hids Hn) Hn) in Hnf.
    by repeat case_match.
  - intros Hno. rewrite put_note_not_found; [done|].
    apply findIndex_None, Forall_forall. intros n Hn.
    destruct noteId as [| |k]; simpl; try done.
    apply Z.eqb_neq. intros <-. apply (Hno (id n) eq_refl).
    apply list_elem_of_lookup in Hn as [i Hi].
    rewrite (ids_sequential_lookup _ _ _ Hids Hi).
    apply lookup_lt_Some in Hi. lia.
Qed.

Lemma update_not_found_iff_witness :
  (put_note (Example.t0 + 700) (Num 3) (JString "x") JUndefined
     Example.two_notes).1 = NotFound (Num 3) ∧
  (put_note (Example.t0 + 700) NaN (JString "x") JUndefined
     Example.two_notes).1 = NotFound NaN.
Proof.
  split.
  - apply (update_not_found_iff Example.two_notes (Example.t0 + 700) (Num 3)
             (JString "x") JUndefined reachable_two_notes).
    intros k [= <-].
    change (length (notes Example.two_notes)) with 2%nat. lia.
  - apply (update_not_found_iff Example.two_notes (Example.t0 + 700) NaN
             (JString "x") JUndefined reachable_two_notes).
    intros k. discriminate.
Defined.

(** X20: a stored note is modified only by an update that really changes
    it: after any request the note at a position is the one stored before,
    unless the request is answered "updated" with a note of the same id and
    [created_at] whose title or content differs from the stored one. *)
Theorem note_changes_only_by_effective_update e s i n :
  notes s !! i = Some n →
  notes (handle e s).2 !! i = Some n ∨
  ∃ n' fields,
    (handle e s).1 = Updated n' fields ∧
    notes (handle e s).2 !! i = Some n' ∧
    id n' = id n ∧ created_at n' = created_at n ∧
    (title n' ≠ title n ∨ content n' ≠ content n).
Proof.
  intros Hn.
  destruct (handle_step e s)
    as [(_ & _ & -> & _)|[(m & _ & -> & _)|(n' & fields & Hu & _)]].
  - by left.
  - left. apply lookup_app_l_Some. done.
  - destruct (handle_updated e s n' fields Hu)
      as (now & noteId & t & c & j & old & -> & Hj & Hold & _ & _ & Hn' & ->).
    destruct (decide (j = i)) as [->|Hne];
      [|left; by rewrite list_lookup_insert_ne].
    right. exists n', fields.
    rewrite list_lookup_insert_eq by by eapply lookup_lt_Some.
    assert (old = n) as -> by congruence.
    split; [done|]. split; [done|]. rewrite Hn'. simpl.
    split; [done|]. split; [done|].
    simpl in Hu. rewrite (put_note_found _ _ _ _ _ _ _ Hj Hold) in Hu.
    repeat case_match; simplify_eq/=.
    all: unfold changes in *.
    all: repeat match goal with
           | H : _ && _ = true |- _ => apply andb_prop in H as [_ H]
           | H : negb _ = true |- _ => apply negb_true_iff in H
           | H : String.eqb _ _ = false |- _ => apply String.eqb_neq in H
           end.
    all: tauto.
Qed.

Lemma note_changes_only_by_effective_update_witness :
  notes (handle Example.retitle Example.two_notes).2 !! 1%nat =
    Some Example.note2 ∨
  ∃ n' fields,
    (handle Example.retitle Example.two_notes).1 = Updated n' fields ∧
    notes (handle Example.retitle Example.two_notes).2 !! 1%nat = Some n' ∧
    id n' = id Example.note2 ∧ created_at n' = created_at Example.note2 ∧
    (title n' ≠ title Example.note2 ∨ content n' ≠ content Example.note2).
Proof.
  apply (note_changes_only_by_effective_update Example.retitle
           Example.two_notes 1 Example.note2).
  reflexivity.
Defined.

(** X21: ids are handed out to created notes only.  Over any sequence of
    requests the counter grows by the number of Created responses and so
    does the number of stored notes; rejected creates, updates, listings and
    searches use up no id. *)
Theorem counter_counts_created_notes es s :
  noteIdCounter (run es s).2 =
    noteIdCounter s + Z.of_nat (length (List.filter is_created (run es s).1)) ∧
  length (notes (run es s).2) =
    (length (notes s) + length (List.filter is_created (run es s).1))%nat.
Proof.
  revert s. induction es as [|e es IH]; intros s.
  - simpl. split; lia.
  - rewrite run_cons. cbn [fst snd List.filter].
    destruct (IH (handle e s).2) as [-> ->].
    destruct (handle_step e s)
      as [(Hc & _ & -> & ->)|[(n & Hc & -> & ->)|(n & fields & Hc & -> & ->)]].
    + rewrite Hc. split; lia.
    + rewrite Hc, length_app. simpl. split; lia.
    + rewrite Hc. simpl. split; lia.
Qed.
